(** * TypeState: a finite state machine with guarded transitions

    Shallow embedding of [src/fsm.ts] and the properties of its
    transition protocol.

    The engine is a mutable object whose methods call closures of the
    embedding application.  Methods are computations in a small
    state-and-exception monad [JS].  A closure has an identity and an
    effect: it is called with [this] bound to the engine, reads
    [currentState] there, reads and writes the application's own state [W],
    and either returns a value or throws.  Every call of a closure is
    recorded in a call log.  Closures that call back into the engine are
    outside this model.

    A registry is a plain object used as a map from the string of a state
    to an array.  Reading [reg[key]] finds the array stored under the key,
    or else a property that every object inherits (such as [constructor]),
    or else [undefined]; the inherited properties are functions or objects
    that are no arrays, so they are truthy and have none of the array
    methods.

    States are compared with [===], which is taken to be an equality on
    the type of states (no state differs from itself, as NaN would). *)

From stdpp Require Import gmap strings list.

(** ** Completions and the method monad *)

Inductive Exn : Type :=
| Error (message : string)   (* [throw new Error(message)] *)
| TypeError.                 (* a method called on what does not have it *)

Inductive Completion (A : Type) : Type :=
| Normal (a : A)
| Throw (e : Exn).
Arguments Normal {A} a.
Arguments Throw {A} e.

(** The three callback registries of the engine. *)
Inductive Registry : Type := OnReg | ExitReg | EnterReg.

(** One entry of the call log: a closure stored in registry [r] was called. *)
Inductive Event : Type := Call (r : Registry) (id : nat).

Global Instance Registry_eq_dec : EqDecision Registry.
Proof. solve_decision. Defined.
Global Instance Event_eq_dec : EqDecision Event.
Proof. solve_decision. Defined.
Global Instance Exn_eq_dec : EqDecision Exn.
Proof. solve_decision. Defined.

(** [state.toString()] *)
Class ToString (T : Type) : Type := toString : T → string.

(** The names of the properties that every object inherits. *)
Class ObjectPrototype : Type := inherited : string → bool.

(** The properties of [Object.prototype]. *)
Definition Object_prototype_names : list string :=
  ["constructor"; "hasOwnProperty"; "isPrototypeOf"; "propertyIsEnumerable";
   "toLocaleString"; "toString"; "valueOf"; "__proto__";
   "__defineGetter__"; "__defineSetter__";
   "__lookupGetter__"; "__lookupSetter__"].

Definition Object_prototype : ObjectPrototype :=
  λ key, bool_decide (key ∈ Object_prototype_names).

(** What [reg[key]] evaluates to. *)
Inductive Slot (A : Type) : Type :=
| Undefined              (* no property of that name *)
| Array (arr : list A)   (* the array stored under the key *)
| Inherited.             (* an inherited property *)
Arguments Undefined {A}.
Arguments Array {A} arr.
Arguments Inherited {A}.

Section Engine.
(** [T] is the state type of the machine ([===] is its equality,
    [toString] its string conversion), [W] the application state that
    the callbacks read and write. *)
Context {T : Type} `{EqDecision T} `{ToString T} `{ObjectPrototype} {W : Type}.

(** A closure [() => R]: its identity, and its effect given the
    [currentState] of the engine it is called on. *)
Record Callback (R : Type) : Type := mkCallback {
  cb_id : nat;
  cb_call : T → W → Completion R * W
}.
Arguments mkCallback {R} _ _.
Arguments cb_id {R} _.
Arguments cb_call {R} _ _ _.

(** [class TransitionFunction<T>] (the back pointer [fsm] is not read
    anywhere). *)
Record TransitionFunction : Type := mkTransitionFunction {
  tf_from : T;
  tf_to : T
}.

Global Instance TransitionFunction_eq_dec : EqDecision TransitionFunction.
Proof. solve_decision. Defined.

(** [class Transitions<T>]: both fields are [undefined] until assigned. *)
Record Transitions : Type := mkTransitions {
  fromStates : option (list T);
  toStates : option (list T)
}.

(** [class FiniteStateMachine<T>]. *)
Record FiniteStateMachine : Type := mkFSM {
  currentState : T;
  _startState : T;
  _transitionFunctions : list TransitionFunction;
  _onCallbacks : gmap string (list (Callback unit));
  _exitCallbacks : gmap string (list (Callback bool));
  _enterCallbacks : gmap string (list (Callback bool))
}.

(** The whole store: the engine object, the application state and the
    log of closure calls. *)
Record Store : Type := mkStore {
  this : FiniteStateMachine;
  app : W;
  calls : list Event
}.

Definition JS (A : Type) : Type := Store → Completion A * Store.

Definition ret {A} (a : A) : JS A := λ s, (Normal a, s).

Definition bind {A B} (c : JS A) (k : A → JS B) : JS B :=
  λ s, match c s with
       | (Normal a, s') => k a s'
       | (Throw e, s') => (Throw e, s')
       end.

Definition throw {A} (e : Exn) : JS A := λ s, (Throw e, s).

Definition read {A} (f : FiniteStateMachine → A) : JS A :=
  λ s, (Normal (f (this s)), s).

Definition write (f : FiniteStateMachine → FiniteStateMachine) : JS unit :=
  λ s, (Normal (), mkStore (f (this s)) (app s) (calls s)).


(** [cb.call(this)] for a closure taken from registry [r]: what the closure
    throws is thrown on. *)
Definition call {R} (r : Registry) (cb : Callback R) : JS R :=
  λ s, let (c, w) := cb_call cb (currentState (this s)) (app s) in
       (c, mkStore (this s) w (calls s ++ [Call r (cb_id cb)])).

Notation "'let*' x := c 'in' k" := (bind c (λ x, k))
  (at level 10, x name, c at level 100, k at level 200, only parsing).

(** *** Array methods *)

(** [arr.forEach(f)] *)
Fixpoint forEach {A} (f : A → JS unit) (arr : list A) : JS unit :=
  match arr with
  | [] => ret ()
  | x :: rest => let* _ := f x in forEach f rest
  end.

(** [arr.reduce(f, init)] *)
Fixpoint reduce {A B} (f : B → A → JS B) (arr : list A) (init : B) : JS B :=
  match arr with
  | [] => ret init
  | x :: rest => let* accum := f init x in reduce f rest accum
  end.

(** [arr.some(p)] for a predicate without effects *)
Definition some {A} (p : A → bool) (arr : list A) : bool := existsb p arr.

(** Reading a field that may be [undefined] in order to call a method
    on it. *)
Definition defined {A} (o : option A) : JS A :=
  match o with
  | Some a => ret a
  | None => throw TypeError
  end.


(** [reg[key]] *)
Definition get {A} (reg : gmap string (list A)) (key : string) : Slot A :=
  match reg !! key with
  | Some arr => Array arr
  | None => if inherited key then Inherited else Undefined
  end.

(** [slot.push(...)], [slot.reduce(...)], [slot.forEach(...)]: the array
    that the method is called on. *)
Definition as_array {A} (slot : Slot A) : JS (list A) :=
  match slot with
  | Array arr => ret arr
  | Undefined | Inherited => throw TypeError
  end.

(** *** Field updates *)

Definition set_currentState (x : T) (m : FiniteStateMachine) :=
  mkFSM x (_startState m) (_transitionFunctions m)
        (_onCallbacks m) (_exitCallbacks m) (_enterCallbacks m).

Definition set_transitionFunctions (l : list TransitionFunction)
    (m : FiniteStateMachine) :=
  mkFSM (currentState m) (_startState m) l
        (_onCallbacks m) (_exitCallbacks m) (_enterCallbacks m).

Definition set_onCallbacks (r : gmap string (list (Callback unit)))
    (m : FiniteStateMachine) :=
  mkFSM (currentState m) (_startState m) (_transitionFunctions m)
        r (_exitCallbacks m) (_enterCallbacks m).

Definition set_exitCallbacks (r : gmap string (list (Callback bool)))
    (m : FiniteStateMachine) :=
  mkFSM (currentState m) (_startState m) (_transitionFunctions m)
        (_onCallbacks m) r (_enterCallbacks m).

Definition set_enterCallbacks (r : gmap string (list (Callback bool)))
    (m : FiniteStateMachine) :=
  mkFSM (currentState m) (_startState m) (_transitionFunctions m)
        (_onCallbacks m) (_exitCallbacks m) r.


(** [if (!reg[key]) { reg[key] = []; }]: an array and an inherited
    property are both truthy. *)
Definition ensure {A} (key : string) (reg : gmap string (list A))
    : gmap string (list A) :=
  match get reg key with
  | Undefined => <[key := []]> reg
  | Array _ | Inherited => reg
  end.

(** ** The engine *)

(** [constructor(startState)] *)
Definition new_FiniteStateMachine (startState : T) : FiniteStateMachine :=
  mkFSM startState startState [] ∅ ∅ ∅.

(** [_validTransition(from, to)] *)
Definition _validTransition (from to : T) : JS bool :=
  let* tfs := read _transitionFunctions in
  ret (some (λ tf, bool_decide (tf_from tf = from)
                   && bool_decide (tf_to tf = to)) tfs).

(** [canGo(state)] *)
Definition canGo (state : T) : JS bool :=
  let* cur := read currentState in
  if bool_decide (cur = state) then ret true
  else _validTransition cur state.

(** [addTransitions(fcn)] *)
Definition addTransitions (fcn : Transitions) : JS unit :=
  let* froms := defined (fromStates fcn) in
  forEach (λ from,
    let* tos := defined (toStates fcn) in
    forEach (λ to,
      if bool_decide (from = to) then ret ()
      else
        let* dup := _validTransition from to in
        if dup then ret ()
        else
          let* tfs := read _transitionFunctions in
          write (set_transitionFunctions
                   (tfs ++ [mkTransitionFunction from to]))) tos) froms.

(** [on(state, callback)]; the engine it returns for chaining is the one
    in the store. *)
Definition on (state : T) (callback : Callback unit) : JS unit :=
  let key := toString state in
  let* _ := write (λ m, set_onCallbacks (ensure key (_onCallbacks m)) m) in
  let* slot := read (λ m, get (_onCallbacks m) key) in
  let* arr := as_array slot in
  write (λ m, set_onCallbacks
                (<[key := arr ++ [callback]]> (_onCallbacks m)) m).

(** [onEnter(state, callback)] *)
Definition onEnter (state : T) (callback : Callback bool) : JS unit :=
  let key := toString state in
  let* _ := write (λ m, set_enterCallbacks
                          (ensure key (_enterCallbacks m)) m) in
  let* slot := read (λ m, get (_enterCallbacks m) key) in
  let* arr := as_array slot in
  write (λ m, set_enterCallbacks
                (<[key := arr ++ [callback]]> (_enterCallbacks m)) m).

(** [onExit(state, callback)] *)
Definition onExit (state : T) (callback : Callback bool) : JS unit :=
  let key := toString state in
  let* _ := write (λ m, set_exitCallbacks
                          (ensure key (_exitCallbacks m)) m) in
  let* slot := read (λ m, get (_exitCallbacks m) key) in
  let* arr := as_array slot in
  write (λ m, set_exitCallbacks
                (<[key := arr ++ [callback]]> (_exitCallbacks m)) m).

(** [from(...states)] *)
Definition from (states : list T) : JS Transitions :=
  ret (mkTransitions (Some states) None).

(** [Transitions.to(...states)] on the builder [tr] *)
Definition to (tr : Transitions) (states : list T) : JS unit :=
  addTransitions (mkTransitions (fromStates tr) (Some states)).

(** [reset()] *)
Definition reset : JS unit :=
  let* start := read _startState in
  write (set_currentState start).

(** The reducer of both guard folds:
    [(accum, next) => accum && next.call(this)]. *)
Definition guard (r : Registry) (accum : bool) (next : Callback bool)
    : JS bool :=
  if accum then call r next else ret accum.


(** [_transitionTo(state)] *)
Definition _transitionTo (state : T) : JS unit :=
  let* cur := read currentState in
  let* _ := write (λ m, set_exitCallbacks
                          (ensure (toString cur) (_exitCallbacks m)) m) in
  let* _ := write (λ m, set_enterCallbacks
                          (ensure (toString state) (_enterCallbacks m)) m) in
  let* _ := write (λ m, set_onCallbacks
                          (ensure (toString state) (_onCallbacks m)) m) in
  let* cur := read currentState in
  let* exits := read (λ m, get (_exitCallbacks m) (toString cur)) in
  let* exits := as_array exits in
  let* canExit := reduce (guard ExitReg) exits true in
  let* enters := read (λ m, get (_enterCallbacks m) (toString state)) in
  let* enters := as_array enters in
  let* canEnter := reduce (guard EnterReg) enters true in
  if canExit && canEnter then
    let* _ := write (set_currentState state) in
    let* cur := read currentState in
    let* ons := read (λ m, get (_onCallbacks m) (toString cur)) in
    let* ons := as_array ons in
    forEach (call OnReg) ons
  else ret ().

(** [go(state)] *)
Definition go (state : T) : JS unit :=
  let* ok := canGo state in
  if ok then _transitionTo state
  else
    let* cur := read currentState in
    throw (Error ("Error no transition function exists from state "
                    +:+ toString cur +:+ " to " +:+ toString state)).

(** ** Clients *)

(** What a client can do with an engine. *)
Inductive Op : Type :=
| FromTo (froms tos : list T)          (* [fsm.from(...).to(...)] *)
| AddTransitions (fcn : Transitions)   (* [fsm.addTransitions(fcn)] *)
| On (state : T) (callback : Callback unit)
| OnEnter (state : T) (callback : Callback bool)
| OnExit (state : T) (callback : Callback bool)
| CanGo (state : T)
| Go (state : T)
| Reset
| Assign (state : T).                  (* [fsm.currentState = state] *)

Definition perform (op : Op) : JS unit :=
  match op with
  | FromTo froms tos => let* tr := from froms in to tr tos
  | AddTransitions fcn => addTransitions fcn
  | On state callback => on state callback
  | OnEnter state callback => onEnter state callback
  | OnExit state callback => onExit state callback
  | CanGo state => let* _ := canGo state in ret ()
  | Go state => go state
  | Reset => reset
  | Assign state => write (set_currentState state)
  end.

(** A client that performs [ops] one after the other and catches
    whatever an operation throws. *)
Fixpoint client (ops : list Op) (s : Store) : Store :=
  match ops with
  | [] => s
  | op :: rest => client rest (perform op s).2
  end.

(** [new FiniteStateMachine<T>(startState)] in an application whose
    state is [w]. *)
Definition fresh (startState : T) (w : W) : Store :=
  mkStore (new_FiniteStateMachine startState) w [].

(** ** Vocabulary of the properties *)

(** The edge [(from, to)] is stored in the engine. *)
Definition registered (m : FiniteStateMachine) (from to : T) : Prop :=
  mkTransitionFunction from to ∈ _transitionFunctions m.

Global Instance registered_dec m from to : Decision (registered m from to).
Proof. unfold registered. apply _. Defined.

(** The callbacks stored in [reg] under the key of [state], none when the
    key is absent. *)
Definition callbacks {A} (reg : gmap string (list A)) (state : T) : list A :=
  default [] (reg !! toString state).

(** The log entry of a call of [cb] out of registry [r]. *)
Definition event {R} (r : Registry) (cb : Callback R) : Event :=
  Call r (cb_id cb).

(** The application state after the calls of [cbs], in order, on an
    engine whose current state is [cur]. *)
Definition app_after {R} (cur : T) (cbs : list (Callback R)) (w : W) : W :=
  foldl (λ w cb, (cb_call cb cur w).2) w cbs.


(** The string of [state] is not the name of an inherited property. *)
Definition ordinary (state : T) : Prop := inherited (toString state) = false.

(** No callback of [cbs] throws, whatever the engine and the application
    are at. *)
Definition never_throw {R} (cbs : list (Callback R)) : Prop :=
  ∀ cb, cb ∈ cbs → ∀ cur w, ∃ r, (cb_call cb cur w).1 = Normal r.

(** The completion is the value [true]. *)
Definition is_true (c : Completion bool) : bool :=
  match c with
  | Normal true => true
  | Normal false | Throw _ => false
  end.

(** Every guard of [gs], called in order from [w], returns [true]. *)
Fixpoint all_return_true (cur : T) (gs : list (Callback bool)) (w : W)
    : Prop :=
  match gs with
  | [] => True
  | g :: rest =>
      (cb_call g cur w).1 = Normal true
      ∧ all_return_true cur rest (cb_call g cur w).2
  end.

(** The guards of [gs] up to and including the first that does not return
    [true], when they are called in order from [w]. *)
Fixpoint upto_first_false (cur : T) (gs : list (Callback bool)) (w : W)
    : list (Callback bool) :=
  match gs with
  | [] => []
  | g :: rest =>
      g :: (if is_true (cb_call g cur w).1
            then upto_first_false cur rest (cb_call g cur w).2
            else [])
  end.

(** Every guard of [gs] that is called, in order from [w], returns
    [true]: the value of the AND fold over [gs] when no guard throws. *)
Fixpoint conjunction (cur : T) (gs : list (Callback bool)) (w : W) : bool :=
  match gs with
  | [] => true
  | g :: rest =>
      is_true (cb_call g cur w).1 && conjunction cur rest (cb_call g cur w).2
  end.

(** How the AND fold over [gs] completes: with its value, or with what
    the first guard that throws has thrown. *)
Fixpoint fold_completion (cur : T) (gs : list (Callback bool)) (w : W)
    : Completion bool :=
  match gs with
  | [] => Normal true
  | g :: rest =>
      match (cb_call g cur w).1 with
      | Normal true => fold_completion cur rest (cb_call g cur w).2
      | Normal false => Normal false
      | Throw e => Throw e
      end
  end.

(** The callbacks of [cbs] up to and including the first that throws,
    when they are called in order from [w]. *)
Fixpoint upto_first_throw {R} (cur : T) (cbs : list (Callback R)) (w : W)
    : list (Callback R) :=
  match cbs with
  | [] => []
  | cb :: rest =>
      cb :: (match (cb_call cb cur w).1 with
             | Normal _ => upto_first_throw cur rest (cb_call cb cur w).2
             | Throw _ => []
             end)
  end.

(** How a loop over [cbs] completes. *)
Fixpoint loop_completion {R} (cur : T) (cbs : list (Callback R)) (w : W)
    : Completion unit :=
  match cbs with
  | [] => Normal ()
  | cb :: rest =>
      match (cb_call cb cur w).1 with
      | Normal _ => loop_completion cur rest (cb_call cb cur w).2
      | Throw e => Throw e
      end
  end.

(** The edge set is well formed: no self-loop, no pair stored twice. *)
Definition edges_wf (m : FiniteStateMachine) : Prop :=
  NoDup (_transitionFunctions m)
  ∧ ∀ tf, tf ∈ _transitionFunctions m → tf_from tf ≠ tf_to tf.

(** The pairs of the cross product of [froms] and [tos], in the order in
    which [addTransitions] visits them. *)
Definition cross (froms tos : list T) : list (T * T) :=
  froms ≫= λ f, pair f <$> tos.

(** The registration of one pair: the body of the inner loop of
    [addTransitions], as a function on the stored edges. *)
Definition submit (tfs : list TransitionFunction) (p : T * T)
    : list TransitionFunction :=
  if bool_decide (p.1 = p.2) then tfs
  else if bool_decide (mkTransitionFunction p.1 p.2 ∈ tfs) then tfs
  else tfs ++ [mkTransitionFunction p.1 p.2].

(** The guards and on-commit callbacks that a call [go(state)] in store
    [s] looks up. *)
Definition exit_guards (s : Store) : list (Callback bool) :=
  callbacks (_exitCallbacks (this s)) (currentState (this s)).

Definition enter_guards (s : Store) (state : T) : list (Callback bool) :=
  callbacks (_enterCallbacks (this s)) state.

Definition on_commit (s : Store) (state : T) : list (Callback unit) :=
  callbacks (_onCallbacks (this s)) state.

(** The values of the two guard folds of [go(state)] in store [s], and
    the application state after each of them. *)
Definition canExit (s : Store) : bool :=
  conjunction (currentState (this s)) (exit_guards s) (app s).

Definition after_exit (s : Store) : W :=
  app_after (currentState (this s))
    (upto_first_false (currentState (this s)) (exit_guards s) (app s))
    (app s).

Definition canEnter (s : Store) (state : T) : bool :=
  conjunction (currentState (this s)) (enter_guards s state) (after_exit s).

Definition after_enter (s : Store) (state : T) : W :=
  app_after (currentState (this s))
    (upto_first_false (currentState (this s)) (enter_guards s state)
                      (after_exit s))
    (after_exit s).

(** The engine after the three registries have been given an empty
    array for the keys that [_transitionTo(state)] is about to read. *)
Definition prepared (state : T) (m : FiniteStateMachine)
    : FiniteStateMachine :=
  set_onCallbacks (ensure (toString state) (_onCallbacks m))
    (set_enterCallbacks (ensure (toString state) (_enterCallbacks m))
       (set_exitCallbacks
          (ensure (toString (currentState m)) (_exitCallbacks m)) m)).

(** [called] is what a fold over the guards [gs] calls when it stops
    calling at the first guard that returns [false]: all of [gs] when
    every guard returns [true], and otherwise the guards up to and
    including the first one that returns [false]. *)
Definition stops_at_first_false (cur : T) (gs : list (Callback bool))
    (w : W) (called : list (Callback bool)) : Prop :=
  (all_return_true cur gs w ∧ called = gs)
  ∨ (∃ before g later,
       gs = before ++ g :: later
       ∧ called = before ++ [g]
       ∧ all_return_true cur before w
       ∧ (cb_call g cur (app_after cur before w)).1 = Normal false).

(** The pairs that [addTransitions(fcn)] submits: none when it stops on
    a field that is [undefined]. *)
Definition submitted (fcn : Transitions) : list (T * T) :=
  match fromStates fcn, toStates fcn with
  | Some froms, Some tos => cross froms tos
  | _, _ => []
  end.

(** The store [s] with the edges [tfs] in its engine. *)
Definition with_edges (tfs : list TransitionFunction) (s : Store) : Store :=
  mkStore (set_transitionFunctions tfs (this s)) (app s) (calls s).

(** The guard folds read without short-circuit: [go(state)] in store [s]
    calls every exit guard of the current state and every enter guard of
    [state]. *)
Definition every_guard_called (s : Store) (state : T) : Prop :=
  let made := drop (length (calls s)) (calls (go state s).2) in
  (∀ g, g ∈ exit_guards s → event ExitReg g ∈ made)
  ∧ (∀ g, g ∈ enter_guards s state → event EnterReg g ∈ made).

(** The message of the error that [go(state)] throws in store [s]. *)
Definition no_transition (s : Store) (state : T) : string :=
  "Error no transition function exists from state "
    +:+ toString (currentState (this s)) +:+ " to " +:+ toString state.

(** How often the pair [(from, to)] is stored. *)
Definition stored (m : FiniteStateMachine) (from to : T) : nat :=
  length (filter (λ tf, tf = mkTransitionFunction from to)
                 (_transitionFunctions m)).

(** The callbacks stored in each registry under the key of [state]. *)
Definition on_callbacks (m : FiniteStateMachine) (state : T)
    : list (Callback unit) :=
  callbacks (_onCallbacks m) state.

Definition exit_callbacks (m : FiniteStateMachine) (state : T)
    : list (Callback bool) :=
  callbacks (_exitCallbacks m) state.

Definition enter_callbacks (m : FiniteStateMachine) (state : T)
    : list (Callback bool) :=
  callbacks (_enterCallbacks m) state.

(** The part of the call log that the computation [c] adds in store [s]. *)
Definition made {A} (c : JS A) (s : Store) : list Event :=
  drop (length (calls s)) (calls (c s).2).

(** The guard [g] returns false whatever the engine and the application
    are at. *)
Definition always_false (g : Callback bool) : Prop :=
  ∀ cur w, (cb_call g cur w).1 = Normal false.

(** No guard is registered, neither for leaving nor for entering. *)
Definition no_guards (m : FiniteStateMachine) : Prop :=
  ∀ state, exit_callbacks m state = [] ∧ enter_callbacks m state = [].

(** [path] can be walked from [cur]: every step stays or follows a stored
    edge. *)
Fixpoint walkable (m : FiniteStateMachine) (cur : T) (path : list T) : Prop :=
  match path with
  | [] => True
  | next :: rest =>
      (cur = next ∨ registered m cur next) ∧ walkable m next rest
  end.

(** [state] can be reached from the start state along stored edges. *)
Definition reachable (m : FiniteStateMachine) (state : T) : Prop :=
  rtc (registered m) (_startState m) state.

(** The client writes the public field [currentState] itself. *)
Definition is_Assign (op : Op) : bool :=
  match op with
  | Assign _ => true
  | _ => false
  end.

End Engine.

Arguments Callback T W R : clear implicits.
Arguments TransitionFunction T : clear implicits.
Arguments Transitions T : clear implicits.
Arguments FiniteStateMachine T W : clear implicits.
Arguments Store T W : clear implicits.
Arguments Op T W : clear implicits.
Arguments mkCallback {T W R} _ _.
Arguments cb_id {T W R} _.
Arguments cb_call {T W R} _ _ _.


(** ** A concrete machine

    The scenario of the documentation: states Idle, Running and Done, edges
    Idle -> Running and Running -> Done, start state Idle.  The application
    state is a journal in which every callback writes its identity. *)
Module Job.

Inductive Phase : Type := Idle | Running | Done.

Global Instance Phase_eq_dec : EqDecision Phase.
Proof. solve_decision. Defined.

Global Instance Phase_toString : ToString Phase :=
  λ p, match p with
       | Idle => "Idle"
       | Running => "Running"
       | Done => "Done"
       end.

#[export] Instance Job_prototype : ObjectPrototype := Object_prototype.

Definition Journal : Type := list nat.

(** A guard that signs the journal and answers [answer]. *)
Definition guard_ (id : nat) (answer : bool) : Callback Phase Journal bool :=
  mkCallback id (λ _ w, (Normal answer, w ++ [id])).

(** A guard that signs the journal and lets the machine leave or enter
    only while it is in phase [p]. *)
Definition only_in (id : nat) (p : Phase) : Callback Phase Journal bool :=
  mkCallback id (λ cur w, (Normal (bool_decide (cur = p)), w ++ [id])).

(** An on-commit callback that signs the journal. *)
Definition note (id : nat) : Callback Phase Journal unit :=
  mkCallback id (λ _ w, (Normal (), w ++ [id])).

Definition edges : list (Op Phase Journal) :=
  [FromTo [Idle] [Running]; FromTo [Running] [Done]].

(** A new engine, nothing registered. *)
Definition blank : Store Phase Journal := fresh Idle [].

(** Every guard agrees. *)
Definition setup : list (Op Phase Journal) :=
  edges ++ [OnExit Idle (guard_ 1 true);
            OnExit Idle (only_in 2 Idle);
            OnEnter Running (guard_ 3 true);
            On Running (note 4);
            On Running (note 5);
            On Idle (note 6)].

Definition willing : Store Phase Journal := client setup (fresh Idle []).

(** The first exit guard of Idle refuses, the second would agree. *)
Definition refusing : Store Phase Journal :=
  client (edges ++ [OnExit Idle (guard_ 1 false);
                    OnExit Idle (guard_ 2 true);
                    OnEnter Running (guard_ 3 true);
                    OnEnter Running (guard_ 4 true);
                    On Running (note 5)])
         (fresh Idle []).

(** Callbacks on the way, and no guard. *)
Definition plain : Store Phase Journal :=
  client (edges ++ [On Running (note 4); On Done (note 7); On Done (note 8)])
         (fresh Idle []).

(** A machine that has moved on: Idle -> Running -> Done. *)
Definition finished : Store Phase Journal :=
  client (setup ++ [Go Running; Go Done]) (fresh Idle []).

End Job.

(** ** A machine whose states are strings

    Its states are their own keys, so that a state can have the name of an
    inherited property. *)
Module Words.

#[export] Instance string_toString : ToString string := λ state, state.

#[export] Instance Words_prototype : ObjectPrototype := Object_prototype.

Definition Journal : Type := list nat.

(** A guard that signs the journal and answers [answer]. *)
Definition guard_ (id : nat) (answer : bool) : Callback string Journal bool :=
  mkCallback id (λ _ w, (Normal answer, w ++ [id])).

(** A guard that signs the journal and throws. *)
Definition failing (id : nat) : Callback string Journal bool :=
  mkCallback id (λ _ w, (Throw (Error "guard failed"), w ++ [id])).

(** An on-commit callback that signs the journal. *)
Definition note (id : nat) : Callback string Journal unit :=
  mkCallback id (λ _ w, (Normal (), w ++ [id])).

(** An engine with an edge into a state called constructor. *)
Definition odd : Store string Journal :=
  client [FromTo ["idle"] ["constructor"; "busy"];
          OnExit "idle" (guard_ 1 true);
          On "busy" (note 2)]
         (fresh "idle" []).

(** An engine whose first enter guard throws. *)
Definition brittle : Store string Journal :=
  client [FromTo ["idle"] ["busy"];
          OnExit "idle" (guard_ 1 true);
          OnEnter "busy" (failing 2);
          OnEnter "busy" (guard_ 3 true);
          On "busy" (note 4)]
         (fresh "idle" []).

End Words.

(** * Properties *)

Section Properties.
Context {T : Type} `{EqDecision T} `{ToString T} `{ObjectPrototype} {W : Type}.
Implicit Types (s : Store T W) (m : FiniteStateMachine T W).
Implicit Types (state cur : T) (w : W).

(** ** The fold of the guards and the loop over the on-commit callbacks *)

Lemma reduce_cons {A B} (f : B → A → JS B) x rest init s :
  reduce (T:=T) (W:=W) f (x :: rest) init s
  = match f init x s with
    | (Normal accum, s') => reduce f rest accum s'
    | (Throw e, s') => (Throw e, s')
    end.
Proof. reflexivity. Qed.

Lemma forEach_cons {A} (f : A → JS unit) x rest s :
  forEach (T:=T) (W:=W) f (x :: rest) s
  = match f x s with
    | (Normal _, s') => forEach f rest s'
    | (Throw e, s') => (Throw e, s')
    end.
Proof. reflexivity. Qed.

Lemma app_after_cons {R} cur (cb : Callback T W R) cbs w :
  app_after cur (cb :: cbs) w = app_after cur cbs (cb_call cb cur w).2.
Proof. reflexivity. Qed.

Lemma reduce_guard_false (r : Registry) (gs : list (Callback T W bool)) s :
  reduce (guard r) gs false s = (Normal false, s).
Proof.
  induction gs as [|g gs IH]; [done|].
  rewrite reduce_cons. exact IH.
Qed.

(** The fold of the guards, whatever they do. *)
Lemma reduce_guard_true (r : Registry) (gs : list (Callback T W bool)) s :
  reduce (guard r) gs true s
  = (fold_completion (currentState (this s)) gs (app s),
     mkStore (this s)
       (app_after (currentState (this s))
                  (upto_first_false (currentState (this s)) gs (app s))
                  (app s))
       (calls s
        ++ map (event r)
               (upto_first_false (currentState (this s)) gs (app s)))).
Proof.
  revert s. induction gs as [|g gs IH]; intros [m w l].
  - cbn. by rewrite app_nil_r.
  - rewrite reduce_cons. unfold guard at 1, call.
    cbn [this app calls fold_completion upto_first_false map].
    rewrite app_after_cons.
    destruct (cb_call g (currentState m) w) as [[[|]|e] w'] eqn:E;
      cbn [fst snd is_true].
    + rewrite IH. cbn [this app calls]. by rewrite <- app_assoc.
    + by rewrite reduce_guard_false.
    + reflexivity.
Qed.

(** The loop over the on-commit callbacks, whatever they do. *)
Lemma forEach_call (cbs : list (Callback T W unit)) s :
  forEach (call OnReg) cbs s
  = (loop_completion (currentState (this s)) cbs (app s),
     mkStore (this s)
       (app_after (currentState (this s))
                  (upto_first_throw (currentState (this s)) cbs (app s))
                  (app s))
       (calls s
        ++ map (event OnReg)
               (upto_first_throw (currentState (this s)) cbs (app s)))).
Proof.
  revert s. induction cbs as [|cb cbs IH]; intros [m w l].
  - cbn. by rewrite app_nil_r.
  - rewrite forEach_cons. unfold call at 1.
    cbn [this app calls loop_completion upto_first_throw map].
    rewrite app_after_cons.
    destruct (cb_call cb (currentState m) w) as [[[]|e] w'] eqn:E;
      cbn [fst snd].
    + rewrite IH. cbn [this app calls]. by rewrite <- app_assoc.
    + reflexivity.
Qed.

(** ** What a guard fold calls and what it yields *)

Lemma fold_completion_Normal cur (gs : list (Callback T W bool)) w b :
  fold_completion cur gs w = Normal b → conjunction cur gs w = b.
Proof.
  revert w. induction gs as [|g gs IH]; intros w; cbn.
  - by intros [= <-].
  - destruct (cb_call g cur w).1 as [[|]|e]; cbn; [apply IH| |done].
    by intros [= <-].
Qed.

Lemma never_throw_cons {R} (cb : Callback T W R) cbs :
  never_throw (cb :: cbs) →
  (∀ cur w, ∃ r, (cb_call cb cur w).1 = Normal r) ∧ never_throw cbs.
Proof.
  intros Hall. split.
  - apply Hall. by left.
  - intros cb' Hin. apply Hall. by right.
Qed.

Lemma never_throw_nil {R} : never_throw (@nil (Callback T W R)).
Proof. by intros cb ?%elem_of_nil. Qed.

Lemma never_throw_intro {R} (cb : Callback T W R) cbs :
  (∀ cur w, ∃ r, (cb_call cb cur w).1 = Normal r) →
  never_throw cbs → never_throw (cb :: cbs).
Proof. intros Hcb Hcbs cb' [->|Hin]%elem_of_cons; [done|by apply Hcbs]. Qed.

Lemma fold_completion_returns cur (gs : list (Callback T W bool)) w :
  never_throw gs → fold_completion cur gs w = Normal (conjunction cur gs w).
Proof.
  revert w. induction gs as [|g gs IH]; intros w Hgs; [done|].
  apply never_throw_cons in Hgs as [Hg Hgs]. cbn.
  destruct (Hg cur w) as [[|] ->]; cbn; [by apply IH|done].
Qed.

Lemma loop_returns {R} cur (cbs : list (Callback T W R)) w :
  never_throw cbs →
  loop_completion cur cbs w = Normal () ∧ upto_first_throw cur cbs w = cbs.
Proof.
  revert w. induction cbs as [|cb cbs IH]; intros w Hcbs; [done|].
  apply never_throw_cons in Hcbs as [Hcb Hcbs]. cbn.
  destruct (Hcb cur w) as [r ->].
  destruct (IH (cb_call cb cur w).2 Hcbs) as [-> ->]. done.
Qed.

Lemma conjunction_true cur (gs : list (Callback T W bool)) w :
  conjunction cur gs w = true ↔ all_return_true cur gs w.
Proof.
  revert w. induction gs as [|g gs IH]; intros w; simpl; [done|].
  rewrite andb_true_iff, IH.
  destruct (cb_call g cur w).1 as [[|]|e]; cbn; intuition congruence.
Qed.

Lemma all_true_called cur (gs : list (Callback T W bool)) w :
  all_return_true cur gs w → upto_first_false cur gs w = gs.
Proof.
  revert w. induction gs as [|g gs IH]; intros w; simpl; [done|].
  intros [-> Hrest]. cbn. by rewrite IH.
Qed.

Lemma all_true_completion cur (gs : list (Callback T W bool)) w :
  all_return_true cur gs w → fold_completion cur gs w = Normal true.
Proof.
  revert w. induction gs as [|g gs IH]; intros w; simpl; [done|].
  intros [-> Hrest]. by apply IH.
Qed.

Lemma upto_first_false_elem cur (gs : list (Callback T W bool)) w g :
  g ∈ upto_first_false cur gs w → g ∈ gs.
Proof.
  revert w. induction gs as [|g' gs IH]; intros w; cbn [upto_first_false].
  - done.
  - intros [->|Hin]%elem_of_cons; [by left|]. right.
    destruct (is_true (cb_call g' cur w).1);
      [by eapply IH|by apply elem_of_nil in Hin].
Qed.

Lemma upto_first_throw_elem {R} cur (cbs : list (Callback T W R)) w cb :
  cb ∈ upto_first_throw cur cbs w → cb ∈ cbs.
Proof.
  revert w. induction cbs as [|cb' cbs IH]; intros w; cbn [upto_first_throw].
  - done.
  - intros [->|Hin]%elem_of_cons; [by left|]. right.
    destruct (cb_call cb' cur w).1;
      [by eapply IH|by apply elem_of_nil in Hin].
Qed.

Lemma fold_stops cur (gs : list (Callback T W bool)) w :
  never_throw gs →
  stops_at_first_false cur gs w (upto_first_false cur gs w).
Proof.
  revert w. induction gs as [|g gs IH]; intros w Hgs.
  - by left.
  - apply never_throw_cons in Hgs as [Hg Hgs]. cbn [upto_first_false].
    destruct (Hg cur w) as [b Hb]. rewrite Hb. destruct b; cbn [is_true].
    + destruct (IH (cb_call g cur w).2 Hgs)
        as [[Hall ->]|(before & g' & later & -> & -> & Hall & Hg')].
      * left. split; [|done]. simpl. by rewrite Hb.
      * right. exists (g :: before), g', later.
        split; [done|]. split; [done|]. split.
        -- simpl. by rewrite Hb.
        -- rewrite app_after_cons. exact Hg'.
    + right. exists [], g, gs.
      split; [done|]. split; [done|]. split; [done|].
      change (app_after cur [] w) with w. exact Hb.
Qed.

(** ** The validity query *)

Lemma some_edge (tfs : list (TransitionFunction T)) (a b : T) :
  some (λ tf, bool_decide (tf_from tf = a) && bool_decide (tf_to tf = b)) tfs
  = bool_decide (mkTransitionFunction a b ∈ tfs).
Proof.
  induction tfs as [|[f t] tfs IH].
  - symmetry. apply bool_decide_eq_false_2. by intros ?%elem_of_nil.
  - unfold some in *. cbn [existsb tf_from tf_to]. rewrite IH. clear IH.
    destruct (decide (f = a)) as [->|Hf]; [destruct (decide (t = b)) as [->|Ht]|].
    + rewrite !bool_decide_eq_true_2 by done. simpl. symmetry.
      apply bool_decide_eq_true_2. by left.
    + rewrite (bool_decide_eq_true_2 (a = a)) by done.
      rewrite (bool_decide_eq_false_2 (t = b)) by done. simpl.
      apply bool_decide_ext. rewrite elem_of_cons. intuition congruence.
    + rewrite (bool_decide_eq_false_2 (f = a)) by done. simpl.
      apply bool_decide_ext. rewrite elem_of_cons. intuition congruence.
Qed.

Lemma _validTransition_spec (a b : T) s :
  _validTransition a b s = (Normal (bool_decide (registered (this s) a b)), s).
Proof. unfold _validTransition, bind, read, ret. by rewrite some_edge. Qed.

Lemma canGo_spec state s :
  canGo state s
  = (Normal (bool_decide (currentState (this s) = state
                          ∨ registered (this s) (currentState (this s)) state)),
     s).
Proof.
  unfold canGo, bind, read. case_bool_decide as Hcur.
  - unfold ret. by rewrite bool_decide_eq_true_2 by by left.
  - rewrite _validTransition_spec. do 2 f_equal.
    apply bool_decide_ext. tauto.
Qed.

(** ** Reading a registry *)

Lemma get_Array {A} (reg : gmap string (list A)) state arr :
  get reg (toString state) = Array arr → callbacks reg state = arr.
Proof.
  unfold get, callbacks. destruct (reg !! toString state); [by intros [= ->]|].
  by destruct (inherited (toString state)).
Qed.

Lemma get_ensure {A} (key : string) (reg : gmap string (list A)) :
  get (ensure key reg) key
  = match get reg key with
    | Undefined => Array []
    | Array arr => Array arr
    | Inherited => Inherited
    end.
Proof.
  unfold ensure. destruct (get reg key) eqn:E; [|done..].
  unfold get. by rewrite lookup_insert_eq.
Qed.

Lemma get_ensure_callbacks {A} (reg : gmap string (list A)) state :
  get reg (toString state) ≠ Inherited →
  get (ensure (toString state) reg) (toString state)
  = Array (callbacks reg state).
Proof.
  intros Hown. rewrite get_ensure. unfold callbacks.
  unfold get in *. destruct (reg !! toString state); [done|].
  by destruct (inherited (toString state)).
Qed.

Lemma get_ordinary {A} (reg : gmap string (list A)) state :
  ordinary state → get reg (toString state) ≠ Inherited.
Proof.
  unfold ordinary, get. intros ->. by destruct (reg !! toString state).
Qed.

Lemma ensure_Inherited {A} (key : string) (reg : gmap string (list A)) :
  get reg key = Inherited → ensure key reg = reg.
Proof. unfold ensure. by intros ->. Qed.

Lemma callbacks_ensure {A} (key : string) (reg : gmap string (list A)) state :
  callbacks (ensure key reg) state = callbacks reg state.
Proof.
  unfold callbacks, ensure, get. destruct (reg !! key) eqn:E; [done|].
  destruct (inherited key); [done|].
  destruct (decide (key = toString state)) as [<-|Hne].
  - by rewrite lookup_insert_eq, E.
  - by rewrite lookup_insert_ne.
Qed.

Lemma callbacks_insert {A} (key : string) (arr : list A)
    (reg : gmap string (list A)) state :
  callbacks (<[key := arr]> reg) state
  = if decide (toString state = key) then arr else callbacks reg state.
Proof.
  unfold callbacks. case_decide as Hkey.
  - by rewrite Hkey, lookup_insert_eq.
  - by rewrite lookup_insert_ne.
Qed.

(** ** The guarded transition *)

(** [_transitionTo(state)], whatever the registries hold and the closures
    do. *)
Lemma _transitionTo_unfold state s :
  _transitionTo state s
  = let m1 := prepared state (this s) in
    let cur := currentState (this s) in
    match get (_exitCallbacks m1) (toString cur) with
    | Array exits =>
        let w1 := app_after cur (upto_first_false cur exits (app s)) (app s) in
        let c1 := calls s
                  ++ map (event ExitReg) (upto_first_false cur exits (app s)) in
        match fold_completion cur exits (app s) with
        | Throw e => (Throw e, mkStore m1 w1 c1)
        | Normal canExit =>
            match get (_enterCallbacks m1) (toString state) with
            | Array enters =>
                let w2 := app_after cur (upto_first_false cur enters w1) w1 in
                let c2 := c1 ++ map (event EnterReg)
                                    (upto_first_false cur enters w1) in
                match fold_completion cur enters w1 with
                | Throw e => (Throw e, mkStore m1 w2 c2)
                | Normal canEnter =>
                    if canExit && canEnter then
                      match get (_onCallbacks m1) (toString state) with
                      | Array ons =>
                          (loop_completion state ons w2,
                           mkStore (set_currentState state m1)
                             (app_after state (upto_first_throw state ons w2)
                                        w2)
                             (c2 ++ map (event OnReg)
                                        (upto_first_throw state ons w2)))
                      | Undefined | Inherited =>
                          (Throw TypeError,
                           mkStore (set_currentState state m1) w2 c2)
                      end
                    else (Normal (), mkStore m1 w2 c2)
                end
            | Undefined | Inherited => (Throw TypeError, mkStore m1 w1 c1)
            end
        end
    | Undefined | Inherited =>
        (Throw TypeError, mkStore m1 (app s) (calls s))
    end.
Proof.
  destruct s as [m w l]. cbv zeta. cbn [this app calls].
  unfold _transitionTo.
  unfold bind at 1, read at 1. cbn [this app calls].
  unfold bind at 1, write at 1. cbn [this app calls].
  unfold bind at 1, write at 1. cbn [this app calls].
  unfold bind at 1, write at 1. cbn [this app calls].
  unfold bind at 1, read at 1. cbn [this app calls].
  unfold bind at 1, read at 1. cbn [this app calls].
  change (set_onCallbacks _ (set_enterCallbacks _ (set_exitCallbacks _ m)))
    with (prepared state m).
  change (currentState (prepared state m)) with (currentState m).
  destruct (get (_exitCallbacks (prepared state m)) (toString (currentState m)))
    as [|exits|]; [reflexivity| |reflexivity].
  unfold bind at 1, as_array at 1, ret at 1.
  unfold bind at 1. rewrite reduce_guard_true. cbn [this app calls].
  change (currentState (prepared state m)) with (currentState m).
  destruct (fold_completion (currentState m) exits w) as [canExit|e];
    [|reflexivity].
  unfold bind at 1, read at 1. cbn [this app calls].
  destruct (get (_enterCallbacks (prepared state m)) (toString state))
    as [|enters|]; [reflexivity| |reflexivity].
  unfold bind at 1, as_array at 1, ret at 1.
  unfold bind at 1. rewrite reduce_guard_true. cbn [this app calls].
  change (currentState (prepared state m)) with (currentState m).
  destruct (fold_completion (currentState m) enters _) as [canEnter|e];
    [|reflexivity].
  destruct (canExit && canEnter); [|reflexivity].
  unfold bind at 1, write at 1. cbn [this app calls].
  unfold bind at 1, read at 1. cbn [this app calls].
  unfold bind at 1, read at 1. cbn [this app calls].
  change (currentState (set_currentState state _)) with state.
  change (_onCallbacks (set_currentState state (prepared state m)))
    with (_onCallbacks (prepared state m)).
  destruct (get (_onCallbacks (prepared state m)) (toString state))
    as [|ons|]; [reflexivity| |reflexivity].
  unfold bind at 1, as_array at 1, ret at 1.
  rewrite forEach_call. cbn [this app calls].
  change (currentState (set_currentState state _)) with state.
  reflexivity.
Qed.

Lemma prepared_exit state m :
  get (_exitCallbacks (prepared state m)) (toString (currentState m))
  = match get (_exitCallbacks m) (toString (currentState m)) with
    | Inherited => Inherited
    | Undefined | Array _ => Array (callbacks (_exitCallbacks m) (currentState m))
    end.
Proof.
  change (_exitCallbacks (prepared state m))
    with (ensure (toString (currentState m)) (_exitCallbacks m)).
  destruct (get (_exitCallbacks m) (toString (currentState m))) eqn:E.
  - apply get_ensure_callbacks. by rewrite E.
  - apply get_ensure_callbacks. by rewrite E.
  - by rewrite get_ensure, E.
Qed.

Lemma prepared_enter state m :
  get (_enterCallbacks (prepared state m)) (toString state)
  = match get (_enterCallbacks m) (toString state) with
    | Inherited => Inherited
    | Undefined | Array _ => Array (callbacks (_enterCallbacks m) state)
    end.
Proof.
  change (_enterCallbacks (prepared state m))
    with (ensure (toString state) (_enterCallbacks m)).
  destruct (get (_enterCallbacks m) (toString state)) eqn:E.
  - apply get_ensure_callbacks. by rewrite E.
  - apply get_ensure_callbacks. by rewrite E.
  - by rewrite get_ensure, E.
Qed.

Lemma prepared_on state m :
  get (_onCallbacks (prepared state m)) (toString state)
  = match get (_onCallbacks m) (toString state) with
    | Inherited => Inherited
    | Undefined | Array _ => Array (callbacks (_onCallbacks m) state)
    end.
Proof.
  change (_onCallbacks (prepared state m))
    with (ensure (toString state) (_onCallbacks m)).
  destruct (get (_onCallbacks m) (toString state)) eqn:E.
  - apply get_ensure_callbacks. by rewrite E.
  - apply get_ensure_callbacks. by rewrite E.
  - by rewrite get_ensure, E.
Qed.

(** [_transitionTo(state)] when the keys it reads are ordinary and the
    guards it may call do not throw. *)
Lemma _transitionTo_guards state s :
  ordinary (currentState (this s)) → ordinary state →
  never_throw (exit_guards s) → never_throw (enter_guards s state) →
  _transitionTo state s
  = if canExit s && canEnter s state
    then (loop_completion state (on_commit s state) (after_enter s state),
          mkStore (set_currentState state (prepared state (this s)))
            (app_after state
               (upto_first_throw state (on_commit s state)
                                 (after_enter s state))
               (after_enter s state))
            (calls s
             ++ map (event ExitReg)
                    (upto_first_false (currentState (this s)) (exit_guards s)
                                      (app s))
             ++ map (event EnterReg)
                    (upto_first_false (currentState (this s))
                                      (enter_guards s state) (after_exit s))
             ++ map (event OnReg)
                    (upto_first_throw state (on_commit s state)
                                      (after_enter s state))))
    else (Normal (),
          mkStore (prepared state (this s)) (after_enter s state)
            (calls s
             ++ map (event ExitReg)
                    (upto_first_false (currentState (this s)) (exit_guards s)
                                      (app s))
             ++ map (event EnterReg)
                    (upto_first_false (currentState (this s))
                                      (enter_guards s state) (after_exit s)))).
Proof.
  intros Hcur Hstate Hexit Henter.
  rewrite _transitionTo_unfold. cbv zeta.
  rewrite prepared_exit, prepared_enter, prepared_on.
  pose proof (get_ordinary (_exitCallbacks (this s)) _ Hcur) as Hx.
  pose proof (get_ordinary (_enterCallbacks (this s)) _ Hstate) as He.
  pose proof (get_ordinary (_onCallbacks (this s)) _ Hstate) as Ho.
  destruct (get (_exitCallbacks (this s)) _); [| |done];
    destruct (get (_enterCallbacks (this s)) _); try done;
    destruct (get (_onCallbacks (this s)) _); try done;
    fold (exit_guards s); fold (enter_guards s state);
    fold (on_commit s state);
    rewrite (fold_completion_returns _ _ _ Hexit);
    fold (canExit s); fold (after_exit s);
    rewrite (fold_completion_returns _ _ _ Henter);
    fold (canEnter s state); fold (after_enter s state);
    destruct (canExit s && canEnter s state);
    by rewrite <- ?app_assoc.
Qed.

(** [_transitionTo(state)] when the keys it reads are ordinary and the
    closures it may call do not throw. *)
Lemma _transitionTo_spec state s :
  ordinary (currentState (this s)) → ordinary state →
  never_throw (exit_guards s) → never_throw (enter_guards s state) →
  never_throw (on_commit s state) →
  _transitionTo state s
  = (Normal (),
     if canExit s && canEnter s state
     then mkStore (set_currentState state (prepared state (this s)))
            (app_after state (on_commit s state) (after_enter s state))
            (calls s
             ++ map (event ExitReg)
                    (upto_first_false (currentState (this s)) (exit_guards s)
                                      (app s))
             ++ map (event EnterReg)
                    (upto_first_false (currentState (this s))
                                      (enter_guards s state) (after_exit s))
             ++ map (event OnReg) (on_commit s state))
     else mkStore (prepared state (this s)) (after_enter s state)
            (calls s
             ++ map (event ExitReg)
                    (upto_first_false (currentState (this s)) (exit_guards s)
                                      (app s))
             ++ map (event EnterReg)
                    (upto_first_false (currentState (this s))
                                      (enter_guards s state) (after_exit s)))).
Proof.
  intros Hcur Hstate Hexit Henter Hon.
  rewrite _transitionTo_guards by done.
  destruct (loop_returns state (on_commit s state) (after_enter s state) Hon)
    as [-> ->].
  by destruct (canExit s && canEnter s state).
Qed.

(** [_transitionTo(state)] when the keys it reads are ordinary, every
    guard returns true and no on-commit callback throws. *)
Lemma _transitionTo_commits state s :
  ordinary (currentState (this s)) → ordinary state →
  all_return_true (currentState (this s)) (exit_guards s) (app s) →
  all_return_true (currentState (this s)) (enter_guards s state)
    (app_after (currentState (this s)) (exit_guards s) (app s)) →
  never_throw (on_commit s state) →
  _transitionTo state s
  = (Normal (),
     mkStore (set_currentState state (prepared state (this s)))
       (app_after state (on_commit s state)
          (app_after (currentState (this s)) (enter_guards s state)
             (app_after (currentState (this s)) (exit_guards s) (app s))))
       (calls s
        ++ map (event ExitReg) (exit_guards s)
        ++ map (event EnterReg) (enter_guards s state)
        ++ map (event OnReg) (on_commit s state))).
Proof.
  intros Hcur Hstate Hexit Henter Hon.
  rewrite _transitionTo_unfold. cbv zeta.
  rewrite prepared_exit, prepared_enter, prepared_on.
  pose proof (get_ordinary (_exitCallbacks (this s)) _ Hcur) as Hx.
  pose proof (get_ordinary (_enterCallbacks (this s)) _ Hstate) as He.
  pose proof (get_ordinary (_onCallbacks (this s)) _ Hstate) as Ho.
  destruct (get (_exitCallbacks (this s)) _); [| |done];
    destruct (get (_enterCallbacks (this s)) _); try done;
    destruct (get (_onCallbacks (this s)) _); try done;
    fold (exit_guards s); fold (enter_guards s state);
    fold (on_commit s state);
    rewrite (all_true_completion _ _ _ Hexit);
    rewrite (all_true_called _ _ _ Hexit);
    rewrite (all_true_completion _ _ _ Henter);
    rewrite (all_true_called _ _ _ Henter);
    cbn [andb];
    destruct (loop_returns state (on_commit s state)
                (app_after (currentState (this s)) (enter_guards s state)
                   (app_after (currentState (this s)) (exit_guards s)
                              (app s))) Hon) as [-> ->];
    by rewrite <- !app_assoc.
Qed.

Lemma slot_cases {A} (reg : gmap string (list A)) state :
  (get reg (toString state) ≠ Inherited
   ∧ get (ensure (toString state) reg) (toString state)
     = Array (callbacks reg state))
  ∨ (get reg (toString state) = Inherited
     ∧ get (ensure (toString state) reg) (toString state) = Inherited).
Proof.
  destruct (get reg (toString state)) eqn:E.
  - left. split; [done|]. apply get_ensure_callbacks. by rewrite E.
  - left. split; [done|]. apply get_ensure_callbacks. by rewrite E.
  - right. split; [done|]. by rewrite get_ensure, E.
Qed.

(** What [_transitionTo(state)] does in every case: which engine it
    leaves, which calls it makes, and when it commits. *)
Lemma _transitionTo_shape state s :
  ∃ (r : Completion unit) (committed : bool) l1 l2 l3 w',
    _transitionTo state s
    = (r, mkStore (if committed
                   then set_currentState state (prepared state (this s))
                   else prepared state (this s))
                  w'
                  (calls s ++ map (event ExitReg) l1
                   ++ map (event EnterReg) l2 ++ map (event OnReg) l3))
    ∧ (∀ g, g ∈ l1 → g ∈ exit_guards s)
    ∧ (∀ g, g ∈ l2 → g ∈ enter_guards s state)
    ∧ (∀ cb, cb ∈ l3 → cb ∈ on_commit s state)
    ∧ (committed = true →
       get (_exitCallbacks (this s)) (toString (currentState (this s)))
       ≠ Inherited
       ∧ conjunction (currentState (this s)) (exit_guards s) (app s) = true
       ∧ get (_enterCallbacks (this s)) (toString state) ≠ Inherited
       ∧ ∃ w1, conjunction (currentState (this s)) (enter_guards s state) w1
               = true)
    ∧ (committed = false → l3 = []).
Proof.
  rewrite _transitionTo_unfold. cbv zeta.
  set (cur := currentState (this s)).
  assert (∀ g, g ∈ upto_first_false cur (exit_guards s) (app s)
               → g ∈ exit_guards s) as Hsub1
    by (intros g; apply upto_first_false_elem).
  assert (∀ w1 g, g ∈ upto_first_false cur (enter_guards s state) w1
                  → g ∈ enter_guards s state) as Hsub2
    by (intros w1 g; apply upto_first_false_elem).
  assert (∀ w2 cb, cb ∈ upto_first_throw state (on_commit s state) w2
                   → cb ∈ on_commit s state) as Hsub3
    by (intros w2 cb; apply upto_first_throw_elem).
  assert (∀ A (x : A), x ∈ @nil A → False) as Hnil
    by (intros A x Hx; by apply elem_of_nil in Hx).
  change (_exitCallbacks (prepared state (this s)))
    with (ensure (toString cur) (_exitCallbacks (this s))).
  change (_enterCallbacks (prepared state (this s)))
    with (ensure (toString state) (_enterCallbacks (this s))).
  change (_onCallbacks (prepared state (this s)))
    with (ensure (toString state) (_onCallbacks (this s))).
  destruct (slot_cases (_exitCallbacks (this s)) cur) as [[Hx ->]|[_ ->]].
  2:{ eexists (Throw TypeError), false, [], [], [], (app s).
      cbn [map]. rewrite !app_nil_r.
      split; [done|]. repeat split; try done; intros; exfalso; eauto. }
  change (callbacks (_exitCallbacks (this s)) cur) with (exit_guards s).
  destruct (fold_completion cur (exit_guards s) (app s)) as [bx|e] eqn:Efx.
  2:{ eexists (Throw e), false,
        (upto_first_false cur (exit_guards s) (app s)), [], [], _.
      cbn [map]. rewrite !app_nil_r.
      split; [reflexivity|]. repeat split; try done; intros; exfalso; eauto. }
  apply fold_completion_Normal in Efx.
  destruct (slot_cases (_enterCallbacks (this s)) state) as [[He ->]|[_ ->]].
  2:{ eexists (Throw TypeError), false,
        (upto_first_false cur (exit_guards s) (app s)), [], [], _.
      cbn [map]. rewrite !app_nil_r.
      split; [reflexivity|]. repeat split; try done; intros; exfalso; eauto. }
  change (callbacks (_enterCallbacks (this s)) state)
    with (enter_guards s state).
  set (w1 := app_after cur (upto_first_false cur (exit_guards s) (app s))
                       (app s)).
  destruct (fold_completion cur (enter_guards s state) w1) as [be|e] eqn:Efe.
  2:{ eexists (Throw e), false,
        (upto_first_false cur (exit_guards s) (app s)),
        (upto_first_false cur (enter_guards s state) w1), [], _.
      cbn [map]. rewrite !app_nil_r, <- !app_assoc.
      split; [reflexivity|]. repeat split; try done; eauto.
      intros; exfalso; eauto. }
  apply fold_completion_Normal in Efe.
  destruct (bx && be) eqn:Eboth.
  2:{ eexists (Normal ()), false,
        (upto_first_false cur (exit_guards s) (app s)),
        (upto_first_false cur (enter_guards s state) w1), [], _.
      cbn [map]. rewrite !app_nil_r, <- !app_assoc.
      split; [reflexivity|]. repeat split; try done; eauto.
      intros; exfalso; eauto. }
  apply andb_true_iff in Eboth as [-> ->].
  destruct (slot_cases (_onCallbacks (this s)) state) as [[Ho ->]|[_ ->]].
  - change (callbacks (_onCallbacks (this s)) state)
      with (on_commit s state).
    eexists _, true,
      (upto_first_false cur (exit_guards s) (app s)),
      (upto_first_false cur (enter_guards s state) w1),
      (upto_first_throw state (on_commit s state) _), _.
    rewrite <- !app_assoc.
    split; [reflexivity|]. repeat split; try done; eauto.
  - eexists (Throw TypeError), true,
      (upto_first_false cur (exit_guards s) (app s)),
      (upto_first_false cur (enter_guards s state) w1), [], _.
    cbn [map]. rewrite !app_nil_r, <- !app_assoc.
    split; [reflexivity|]. repeat split; try done; eauto.
    intros; exfalso; eauto.
Qed.

Lemma go_accepted state s :
  currentState (this s) = state
  ∨ registered (this s) (currentState (this s)) state →
  go state s = _transitionTo state s.
Proof.
  intros Hok. unfold go, bind. rewrite canGo_spec.
  by rewrite bool_decide_eq_true_2.
Qed.

Lemma go_rejected state s :
  currentState (this s) ≠ state →
  ¬ registered (this s) (currentState (this s)) state →
  go state s = (Throw (Error (no_transition s state)), s).
Proof.
  intros Hne Hnr. unfold go, bind. rewrite canGo_spec.
  rewrite bool_decide_eq_false_2 by tauto.
  reflexivity.
Qed.

(** ** The claims about [canGo] and [go] *)

(** C5: [canGo(S)] returns true exactly when [S] is the current state or
    the edge from the current state to [S] is registered; it leaves the
    whole store as it was; and [canGo(currentState)] is true whatever
    edges are registered, also when there are none. *)
Theorem canGo_iff state s :
  ∃ b : bool,
    canGo state s = (Normal b, s)
    ∧ (b = true ↔
       state = currentState (this s)
       ∨ registered (this s) (currentState (this s)) state)
    ∧ canGo (currentState (this s)) s = (Normal true, s).
Proof.
  eexists. split; [apply canGo_spec|]. split.
  - rewrite bool_decide_eq_true. intuition congruence.
  - rewrite canGo_spec. by rewrite bool_decide_eq_true_2 by by left.
Qed.

(** C2: when [X] is not the current state and no edge from the current
    state to [X] is registered, [go(X)] throws the error whose message
    names the current state and [X], and it leaves the whole store as it
    was: the current state is unchanged and no callback has been
    called.  When the keys that [go(X)] reads are ordinary and the
    callbacks it may call do not throw, that is the only way in which
    [go(X)] throws. *)
Theorem go_throws_iff state s :
  (state ≠ currentState (this s)
   ∧ ¬ registered (this s) (currentState (this s)) state →
   go state s
   = (Throw (Error ("Error no transition function exists from state "
                      +:+ toString (currentState (this s))
                      +:+ " to " +:+ toString state)),
      s))
  ∧ (ordinary (currentState (this s)) → ordinary state →
     never_throw (exit_guards s) → never_throw (enter_guards s state) →
     never_throw (on_commit s state) →
     ((∃ e s', go state s = (Throw e, s')) ↔
      state ≠ currentState (this s)
      ∧ ¬ registered (this s) (currentState (this s)) state)
     ∧ (∀ e s', go state s = (Throw e, s') →
          e = Error ("Error no transition function exists from state "
                       +:+ toString (currentState (this s))
                       +:+ " to " +:+ toString state)
          ∧ s' = s)).
Proof.
  split.
  { intros [Hne Hnr]. by rewrite go_rejected. }
  intros Hcur Hstate Hexit Henter Hon.
  destruct (decide (currentState (this s) = state
                    ∨ registered (this s) (currentState (this s)) state))
    as [Hok|Hno].
  - rewrite (go_accepted _ _ Hok), _transitionTo_spec by done. split.
    + split; [by intros (e & s' & [=])|]. intros [Hne Hnr].
      destruct Hok; [congruence|done].
    + by intros e s' [=].
  - assert (currentState (this s) ≠ state) as Hne by tauto.
    assert (¬ registered (this s) (currentState (this s)) state) as Hnr
      by tauto.
    rewrite (go_rejected _ _ Hne Hnr). split.
    + split; [by split|]. eauto.
    + by intros e s' [= <- <-].
Qed.

(** C1: with the edge (A, B) registered, the current state A, the keys
    of A and B ordinary, every exit guard of A and every enter guard of B
    returning true (or none registered) and no on-commit callback of B
    throwing, [go(B)] returns normally, the current state is B, and the
    calls it has made are: every exit guard of A, every enter guard of B,
    and then every on-commit callback stored under the key of B, each
    once and in the order of registration, the on-commit callbacks on an
    engine whose current state is already B. *)
Theorem go_commits (A B : T) s :
  registered (this s) A B →
  currentState (this s) = A →
  ordinary A → ordinary B →
  all_return_true A (exit_guards s) (app s) →
  all_return_true A (enter_guards s B) (app_after A (exit_guards s) (app s)) →
  never_throw (on_commit s B) →
  ∃ s',
    go B s = (Normal (), s')
    ∧ currentState (this s') = B
    ∧ calls s' = calls s
                 ++ map (event ExitReg) (exit_guards s)
                 ++ map (event EnterReg) (enter_guards s B)
                 ++ map (event OnReg) (on_commit s B)
    ∧ app s' = app_after B (on_commit s B)
                 (app_after A (enter_guards s B)
                    (app_after A (exit_guards s) (app s))).
Proof.
  intros Hedge Hcur HA HB Hexit Henter Hon.
  rewrite go_accepted by (right; by rewrite Hcur).
  rewrite _transitionTo_unfold. cbv zeta.
  rewrite prepared_exit, prepared_enter, prepared_on. rewrite Hcur.
  pose proof (get_ordinary (_exitCallbacks (this s)) _ HA) as Hx.
  pose proof (get_ordinary (_enterCallbacks (this s)) _ HB) as He.
  pose proof (get_ordinary (_onCallbacks (this s)) _ HB) as Ho.
  assert (callbacks (_exitCallbacks (this s)) A = exit_guards s) as ->
    by (unfold exit_guards; by rewrite Hcur).
  change (callbacks (_enterCallbacks (this s)) B) with (enter_guards s B).
  change (callbacks (_onCallbacks (this s)) B) with (on_commit s B).
  destruct (get (_exitCallbacks (this s)) _); [| |done];
    destruct (get (_enterCallbacks (this s)) _); try done;
    destruct (get (_onCallbacks (this s)) _); try done;
    rewrite (all_true_completion _ _ _ Hexit);
    rewrite (all_true_called _ _ _ Hexit);
    rewrite (all_true_completion _ _ _ Henter);
    rewrite (all_true_called _ _ _ Henter);
    cbn [andb];
    destruct (loop_returns B (on_commit s B)
                (app_after A (enter_guards s B)
                   (app_after A (exit_guards s) (app s))) Hon) as [-> ->];
    (eexists; split; [reflexivity|]); cbn [this calls app];
    by rewrite <- !app_assoc.
Qed.

(** C3: with the edge (A, B) registered, the current state A, the keys
    of A and B ordinary and no guard throwing, when the fold of the exit
    guards of A or the fold of the enter guards of B yields false,
    [go(B)] returns normally, the current state is still A, and the calls
    it has made are guard calls only: no on-commit callback has been
    called. *)
Theorem go_vetoed (A B : T) s :
  registered (this s) A B →
  currentState (this s) = A →
  ordinary A → ordinary B →
  never_throw (exit_guards s) → never_throw (enter_guards s B) →
  canExit s = false ∨ canEnter s B = false →
  ∃ s' made,
    go B s = (Normal (), s')
    ∧ currentState (this s') = A
    ∧ calls s' = calls s ++ made
    ∧ (∀ id, Call OnReg id ∉ made)
    ∧ app s' = after_enter s B.
Proof.
  intros Hedge Hcur HA HB Hexit Henter Hveto.
  rewrite go_accepted by (right; by rewrite Hcur).
  rewrite _transitionTo_guards by (done || by rewrite Hcur).
  assert (canExit s && canEnter s B = false) as ->.
  { apply andb_false_iff. exact Hveto. }
  eexists _, _. split; [reflexivity|]. cbn [this calls app].
  repeat split; [done|].
  intros id [Hin|Hin]%elem_of_app;
    apply list_elem_of_fmap in Hin as (g & [=] & _).
Qed.

(** C7: [go(currentState)] is accepted whatever edges are registered.
    When the key of the current state is ordinary and no callback of it
    throws, it returns normally: it folds the exit guards of the current
    state, then the enter guards of that same state, and, when both folds
    yield true, calls the on-commit callbacks of that state; the current
    state stays what it was. *)
Theorem go_self s :
  let cur := currentState (this s) in
  ordinary cur →
  never_throw (exit_guards s) → never_throw (enter_guards s cur) →
  never_throw (on_commit s cur) →
  ∃ s',
    go cur s = (Normal (), s')
    ∧ currentState (this s') = cur
    ∧ calls s'
      = calls s
        ++ map (event ExitReg) (upto_first_false cur (exit_guards s) (app s))
        ++ map (event EnterReg)
               (upto_first_false cur (enter_guards s cur) (after_exit s))
        ++ (if canExit s && canEnter s cur
            then map (event OnReg) (on_commit s cur) else [])
    ∧ app s' = (if canExit s && canEnter s cur
                then app_after cur (on_commit s cur) (after_enter s cur)
                else after_enter s cur).
Proof.
  intros cur Hcur Hexit Henter Hon. rewrite go_accepted by by left.
  rewrite _transitionTo_spec by done. fold cur.
  destruct (canExit s && canEnter s cur);
    (eexists; split; [reflexivity|]); cbn [this calls app].
  - done.
  - by rewrite app_nil_r.
Qed.

(** C10: in a call [go(state)] that passes the validity check, with
    ordinary keys and callbacks that do not throw, the fold of the enter
    guards of the target runs from true after the fold of the exit
    guards, whatever the exit fold yielded: its calls are those of a fold
    that stops at the first false, so that the first enter guard is
    called even when the exit fold yielded false.  The transition commits
    only after both folds, and exactly when both yielded true: then the
    current state is the target and its on-commit callbacks are called;
    otherwise the current state is unchanged and none is called. *)
Theorem enter_fold_always_runs state s :
  currentState (this s) = state
  ∨ registered (this s) (currentState (this s)) state →
  ordinary (currentState (this s)) → ordinary state →
  never_throw (exit_guards s) → never_throw (enter_guards s state) →
  never_throw (on_commit s state) →
  let cur := currentState (this s) in
  ∃ s' committed,
    go state s = (Normal (), s')
    ∧ calls s'
      = calls s
        ++ map (event ExitReg) (upto_first_false cur (exit_guards s) (app s))
        ++ map (event EnterReg)
               (upto_first_false cur (enter_guards s state) (after_exit s))
        ++ map (event OnReg) committed
    ∧ (∀ g rest, enter_guards s state = g :: rest →
         event EnterReg g ∈ drop (length (calls s)) (calls s'))
    ∧ (canExit s && canEnter s state = true →
         currentState (this s') = state ∧ committed = on_commit s state)
    ∧ (canExit s && canEnter s state = false →
         currentState (this s') = cur ∧ committed = []).
Proof.
  intros Hok Hcur Hstate Hexit Henter Hon cur.
  rewrite (go_accepted _ _ Hok), _transitionTo_spec by done. fold cur.
  assert (∀ (l : list Event) l1 g rest later,
            enter_guards s state = g :: rest →
            event EnterReg g
            ∈ drop (length l)
                (l ++ l1
                 ++ map (event EnterReg)
                      (upto_first_false cur (enter_guards s state)
                         (after_exit s))
                 ++ later)) as Hfirst.
  { intros l l1 g rest later ->. rewrite drop_app_length.
    cbn [upto_first_false map]. rewrite !elem_of_app, elem_of_cons. tauto. }
  destruct (canExit s && canEnter s state).
  - exists (mkStore (set_currentState state (prepared state (this s)))
              (app_after state (on_commit s state) (after_enter s state))
              (calls s
               ++ map (event ExitReg)
                    (upto_first_false cur (exit_guards s) (app s))
               ++ map (event EnterReg)
                    (upto_first_false cur (enter_guards s state)
                       (after_exit s))
               ++ map (event OnReg) (on_commit s state))),
           (on_commit s state).
    cbn [this calls app]. split; [done|]. split; [done|].
    split; [|by split].
    intros g rest Hg. exact (Hfirst _ _ g rest _ Hg).
  - exists (mkStore (prepared state (this s)) (after_enter s state)
              (calls s
               ++ map (event ExitReg)
                    (upto_first_false cur (exit_guards s) (app s))
               ++ map (event EnterReg)
                    (upto_first_false cur (enter_guards s state)
                       (after_exit s)))),
           [].
    cbn [this calls app map]. split; [done|].
    split; [by rewrite app_nil_r|].
    split; [|by split].
    intros g rest Hg.
    specialize (Hfirst (calls s)
      (map (event ExitReg) (upto_first_false cur (exit_guards s) (app s)))
      g rest [] Hg).
    by rewrite app_nil_r in Hfirst.
Qed.

(** C4, as the code has it: in a call [go(state)] that passes the
    validity check, with ordinary keys and callbacks that do not throw,
    the exit guards of the current state are folded with AND in the order
    of registration, starting from true, and the fold stops calling at
    the first guard that returns false: the guards registered after it
    are not called.  The fold yields true exactly when every guard
    returned true.  The same holds for the enter guards of the target,
    whose fold starts from true again. *)
Theorem guard_folds_stop_at_first_false state s :
  currentState (this s) = state
  ∨ registered (this s) (currentState (this s)) state →
  ordinary (currentState (this s)) → ordinary state →
  never_throw (exit_guards s) → never_throw (enter_guards s state) →
  never_throw (on_commit s state) →
  let cur := currentState (this s) in
  ∃ s' called_exit called_enter,
    go state s = (Normal (), s')
    ∧ calls s'
      = calls s
        ++ map (event ExitReg) called_exit
        ++ map (event EnterReg) called_enter
        ++ (if canExit s && canEnter s state
            then map (event OnReg) (on_commit s state) else [])
    ∧ stops_at_first_false cur (exit_guards s) (app s) called_exit
    ∧ stops_at_first_false cur (enter_guards s state)
        (app_after cur called_exit (app s)) called_enter
    ∧ (canExit s = true ↔ all_return_true cur (exit_guards s) (app s))
    ∧ (canEnter s state = true ↔
       all_return_true cur (enter_guards s state)
         (app_after cur called_exit (app s))).
Proof.
  intros Hok Hcur Hstate Hexit Henter Hon cur.
  rewrite (go_accepted _ _ Hok), _transitionTo_spec by done. fold cur.
  exists (if canExit s && canEnter s state
          then mkStore (set_currentState state (prepared state (this s)))
                 (app_after state (on_commit s state) (after_enter s state))
                 (calls s
                  ++ map (event ExitReg)
                       (upto_first_false cur (exit_guards s) (app s))
                  ++ map (event EnterReg)
                       (upto_first_false cur (enter_guards s state)
                          (after_exit s))
                  ++ map (event OnReg) (on_commit s state))
          else mkStore (prepared state (this s)) (after_enter s state)
                 (calls s
                  ++ map (event ExitReg)
                       (upto_first_false cur (exit_guards s) (app s))
                  ++ map (event EnterReg)
                       (upto_first_false cur (enter_guards s state)
                          (after_exit s)))),
         (upto_first_false cur (exit_guards s) (app s)),
         (upto_first_false cur (enter_guards s state) (after_exit s)).
  split; [done|]. split.
  { destruct (canExit s && canEnter s state); cbn [calls]; [done|].
    by rewrite app_nil_r. }
  split; [by apply fold_stops|]. split; [by apply fold_stops|].
  split; apply conjunction_true.
Qed.

(** ** Registration of edges *)

Lemma with_edges_same s : with_edges (_transitionFunctions (this s)) s = s.
Proof. by destruct s as [[] ? ?]. Qed.

Lemma with_edges_twice (l l' : list (TransitionFunction T)) s :
  with_edges l' (with_edges l s) = with_edges l' s.
Proof. reflexivity. Qed.

(** One turn of the inner loop of [addTransitions]. *)
Lemma inner_loop (from : T) (tos : list T) s :
  forEach (λ to,
    if bool_decide (from = to) then ret ()
    else
      bind (_validTransition from to) (λ dup,
        if dup then ret ()
        else
          bind (read _transitionFunctions) (λ tfs,
            write (set_transitionFunctions
                     (tfs ++ [mkTransitionFunction from to]))))) tos s
  = (Normal (),
     with_edges (foldl submit (_transitionFunctions (this s))
                       (pair from <$> tos)) s).
Proof.
  revert s. induction tos as [|to tos IH]; intros s.
  - cbn. by rewrite with_edges_same.
  - rewrite forEach_cons. cbn [fmap list_fmap foldl].
    unfold submit at 2. cbn [fst snd]. case_bool_decide as Hself.
    + unfold ret at 1. by rewrite IH.
    + unfold bind at 1. rewrite _validTransition_spec. cbv beta iota.
      unfold registered. case_bool_decide as Hdup.
      * rewrite bool_decide_eq_true_2 by done.
        unfold ret at 1. by rewrite IH.
      * rewrite bool_decide_eq_false_2 by done.
        unfold bind at 1, read at 1, write at 1. by rewrite IH.
Qed.

Lemma cross_cons (from : T) (froms tos : list T) :
  cross (from :: froms) tos = (pair from <$> tos) ++ cross froms tos.
Proof. reflexivity. Qed.

Lemma elem_of_cross (froms tos : list T) (f t : T) :
  (f, t) ∈ cross froms tos ↔ f ∈ froms ∧ t ∈ tos.
Proof.
  unfold cross. rewrite list_elem_of_bind. split.
  - intros (f' & (t' & [= -> ->] & Ht)%list_elem_of_fmap & Hf). done.
  - intros [Hf Ht]. exists f. split; [|done].
    apply list_elem_of_fmap. by exists t.
Qed.

Lemma addTransitions_both (froms tos : list T) s :
  addTransitions (mkTransitions (Some froms) (Some tos)) s
  = (Normal (),
     with_edges (foldl submit (_transitionFunctions (this s))
                       (cross froms tos)) s).
Proof.
  unfold addTransitions. cbn [fromStates toStates defined].
  unfold bind at 1, ret at 1.
  revert s. induction froms as [|from froms IH]; intros s.
  - cbn. by rewrite with_edges_same.
  - rewrite forEach_cons. unfold bind at 1, ret at 1.
    rewrite inner_loop, IH, cross_cons, foldl_app. reflexivity.
Qed.

Lemma addTransitions_store (fcn : Transitions T) s :
  (addTransitions fcn s).2
  = with_edges (foldl submit (_transitionFunctions (this s)) (submitted fcn))
               s.
Proof.
  destruct fcn as [[froms|] [tos|]]; unfold submitted;
    cbn [fromStates toStates foldl]; rewrite ?with_edges_same.
  - by rewrite addTransitions_both.
  - destruct froms; reflexivity.
  - reflexivity.
  - reflexivity.
Qed.

Lemma elem_of_submit (tfs : list (TransitionFunction T)) (p : T * T) tf :
  tf ∈ submit tfs p ↔ tf ∈ tfs ∨ (tf = mkTransitionFunction p.1 p.2 ∧ p.1 ≠ p.2).
Proof.
  unfold submit. case_bool_decide as Hself; [tauto|].
  case_bool_decide as Hdup.
  - split; [tauto|]. intros [?|[-> _]]; done.
  - rewrite elem_of_app, list_elem_of_singleton. tauto.
Qed.

Lemma elem_of_foldl_submit (ps : list (T * T)) tfs tf :
  tf ∈ foldl submit tfs ps
  ↔ tf ∈ tfs ∨ ∃ p, p ∈ ps ∧ tf = mkTransitionFunction p.1 p.2 ∧ p.1 ≠ p.2.
Proof.
  revert tfs. induction ps as [|p ps IH]; intros tfs; cbn [foldl].
  - split; [tauto|]. intros [?|(p & []%elem_of_nil & _)]. done.
  - rewrite IH, elem_of_submit. split.
    + intros [[?|[-> ?]]|(q & ? & ?)]; [tauto| |].
      * right. exists p. split; [left|done].
      * right. exists q. split; [by right|done].
    + intros [?|(q & [->|?]%elem_of_cons & ?)]; [tauto|tauto|].
      right. by exists q.
Qed.

Lemma submit_wf (tfs : list (TransitionFunction T)) (p : T * T) :
  NoDup tfs → (∀ tf, tf ∈ tfs → tf_from tf ≠ tf_to tf) →
  NoDup (submit tfs p) ∧ ∀ tf, tf ∈ submit tfs p → tf_from tf ≠ tf_to tf.
Proof.
  intros Hnd Hloop. split.
  - unfold submit. repeat case_bool_decide; try done.
    apply NoDup_app. split; [done|]. split; [|apply NoDup_singleton].
    by intros tf Htf ->%list_elem_of_singleton.
  - intros tf [?|[-> ?]]%elem_of_submit; [by apply Hloop|done].
Qed.

Lemma foldl_submit_wf (ps : list (T * T)) (tfs : list (TransitionFunction T)) :
  NoDup tfs → (∀ tf, tf ∈ tfs → tf_from tf ≠ tf_to tf) →
  NoDup (foldl submit tfs ps)
  ∧ ∀ tf, tf ∈ foldl submit tfs ps → tf_from tf ≠ tf_to tf.
Proof.
  revert tfs. induction ps as [|p ps IH]; intros tfs Hnd Hloop; [done|].
  cbn [foldl]. destruct (submit_wf tfs p Hnd Hloop). by apply IH.
Qed.

Lemma foldl_submit_nothing (ps : list (T * T)) tfs :
  (∀ p, p ∈ ps → p.1 ≠ p.2 → mkTransitionFunction p.1 p.2 ∈ tfs) →
  foldl submit tfs ps = tfs.
Proof.
  induction ps as [|p ps IH]; intros Hin; [done|]. cbn [foldl].
  assert (submit tfs p = tfs) as ->.
  { unfold submit. case_bool_decide as Hself; [done|].
    rewrite bool_decide_eq_true_2; [done|]. apply Hin; [left|done]. }
  apply IH. intros q Hq. apply Hin. by right.
Qed.

Lemma foldl_submit_twice (ps : list (T * T)) tfs :
  foldl submit (foldl submit tfs ps) ps = foldl submit tfs ps.
Proof.
  apply foldl_submit_nothing. intros p Hp Hne.
  apply elem_of_foldl_submit. right. by exists p.
Qed.

(** ** Registration of callbacks *)

Lemma store_eta s : mkStore (this s) (app s) (calls s) = s.
Proof. by destruct s. Qed.

Lemma set_onCallbacks_same m : set_onCallbacks (_onCallbacks m) m = m.
Proof. by destruct m. Qed.

Lemma set_enterCallbacks_same m : set_enterCallbacks (_enterCallbacks m) m = m.
Proof. by destruct m. Qed.

Lemma set_exitCallbacks_same m : set_exitCallbacks (_exitCallbacks m) m = m.
Proof. by destruct m. Qed.

Lemma on_spec state (cb : Callback T W unit) s :
  get (_onCallbacks (this s)) (toString state) ≠ Inherited →
  on state cb s
  = (Normal (),
     mkStore (set_onCallbacks
                (<[toString state := on_commit s state ++ [cb]]>
                   (ensure (toString state) (_onCallbacks (this s))))
                (this s))
             (app s) (calls s)).
Proof.
  intros Hown. unfold on, bind, write, read.
  cbn [this app calls _onCallbacks set_onCallbacks].
  by rewrite get_ensure_callbacks.
Qed.

Lemma on_inherited state (cb : Callback T W unit) s :
  get (_onCallbacks (this s)) (toString state) = Inherited →
  on state cb s = (Throw TypeError, s).
Proof.
  intros Hinh. unfold on, bind, write, read.
  cbn [this app calls _onCallbacks set_onCallbacks].
  rewrite (ensure_Inherited _ _ Hinh), Hinh. cbn.
  by rewrite set_onCallbacks_same, store_eta.
Qed.

Lemma onEnter_spec state (cb : Callback T W bool) s :
  get (_enterCallbacks (this s)) (toString state) ≠ Inherited →
  onEnter state cb s
  = (Normal (),
     mkStore (set_enterCallbacks
                (<[toString state := enter_guards s state ++ [cb]]>
                   (ensure (toString state) (_enterCallbacks (this s))))
                (this s))
             (app s) (calls s)).
Proof.
  intros Hown. unfold onEnter, bind, write, read.
  cbn [this app calls _enterCallbacks set_enterCallbacks].
  by rewrite get_ensure_callbacks.
Qed.

Lemma onEnter_inherited state (cb : Callback T W bool) s :
  get (_enterCallbacks (this s)) (toString state) = Inherited →
  onEnter state cb s = (Throw TypeError, s).
Proof.
  intros Hinh. unfold onEnter, bind, write, read.
  cbn [this app calls _enterCallbacks set_enterCallbacks].
  rewrite (ensure_Inherited _ _ Hinh), Hinh. cbn.
  by rewrite set_enterCallbacks_same, store_eta.
Qed.

Lemma onExit_spec state (cb : Callback T W bool) s :
  get (_exitCallbacks (this s)) (toString state) ≠ Inherited →
  onExit state cb s
  = (Normal (),
     mkStore (set_exitCallbacks
                (<[toString state
                   := callbacks (_exitCallbacks (this s)) state ++ [cb]]>
                   (ensure (toString state) (_exitCallbacks (this s))))
                (this s))
             (app s) (calls s)).
Proof.
  intros Hown. unfold onExit, bind, write, read.
  cbn [this app calls _exitCallbacks set_exitCallbacks].
  by rewrite get_ensure_callbacks.
Qed.

Lemma onExit_inherited state (cb : Callback T W bool) s :
  get (_exitCallbacks (this s)) (toString state) = Inherited →
  onExit state cb s = (Throw TypeError, s).
Proof.
  intros Hinh. unfold onExit, bind, write, read.
  cbn [this app calls _exitCallbacks set_exitCallbacks].
  rewrite (ensure_Inherited _ _ Hinh), Hinh. cbn.
  by rewrite set_exitCallbacks_same, store_eta.
Qed.

Lemma Inherited_dec {A} (slot : Slot A) : {slot = Inherited} + {slot ≠ Inherited}.
Proof. destruct slot; [by right|by right|by left]. Qed.

(** ** What every operation leaves alone *)

(** The fields of the engine after [go(state)], whatever its outcome. *)
Lemma go_fields state s :
  _transitionFunctions (this (go state s).2) = _transitionFunctions (this s)
  ∧ _startState (this (go state s).2) = _startState (this s)
  ∧ (∀ st, on_callbacks (this (go state s).2) st = on_callbacks (this s) st)
  ∧ (∀ st, exit_callbacks (this (go state s).2) st = exit_callbacks (this s) st)
  ∧ (∀ st, enter_callbacks (this (go state s).2) st
           = enter_callbacks (this s) st).
Proof.
  destruct (decide (currentState (this s) = state
                    ∨ registered (this s) (currentState (this s)) state))
    as [Hok|Hno].
  - rewrite (go_accepted _ _ Hok).
    destruct (_transitionTo_shape state s)
      as (r & committed & l1 & l2 & l3 & w' & -> & _).
    unfold on_callbacks, exit_callbacks, enter_callbacks.
    destruct committed;
      cbn [snd this prepared set_currentState set_onCallbacks
           set_enterCallbacks set_exitCallbacks _transitionFunctions
           _startState _onCallbacks _exitCallbacks _enterCallbacks];
      repeat split; intros; apply callbacks_ensure.
  - rewrite go_rejected by tauto. done.
Qed.

Lemma perform_frame (op : Op T W) s :
  _startState (this (perform op s).2) = _startState (this s)
  ∧ ∃ ps, _transitionFunctions (this (perform op s).2)
          = foldl submit (_transitionFunctions (this s)) ps.
Proof.
  destruct op as [froms tos|fcn|st cb|st cb|st cb|st|st| |st];
    cbn [perform].
  - unfold bind, from, to. cbn [fromStates ret].
    rewrite addTransitions_both. split; [done|]. by eexists.
  - rewrite addTransitions_store. split; [done|]. by eexists.
  - destruct (Inherited_dec (get (_onCallbacks (this s)) (toString st)))
      as [Hinh|Hown];
      [rewrite on_inherited by done|rewrite on_spec by done];
      (split; [done|]); by exists [].
  - destruct (Inherited_dec (get (_enterCallbacks (this s)) (toString st)))
      as [Hinh|Hown];
      [rewrite onEnter_inherited by done|rewrite onEnter_spec by done];
      (split; [done|]); by exists [].
  - destruct (Inherited_dec (get (_exitCallbacks (this s)) (toString st)))
      as [Hinh|Hown];
      [rewrite onExit_inherited by done|rewrite onExit_spec by done];
      (split; [done|]); by exists [].
  - unfold bind. rewrite canGo_spec. split; [done|]. by exists [].
  - destruct (go_fields st s) as (Hedges & Hstart & _).
    split; [done|]. exists []. by rewrite Hedges.
  - split; [done|]. by exists [].
  - split; [done|]. by exists [].
Qed.

Lemma client_app (ops ops' : list (Op T W)) s :
  client (ops ++ ops') s = client ops' (client ops s).
Proof. revert s. induction ops as [|op ops IH]; intros s; [done|]. apply IH. Qed.

Lemma client_startState (ops : list (Op T W)) s :
  _startState (this (client ops s)) = _startState (this s).
Proof.
  revert s. induction ops as [|op ops IH]; intros s; [done|].
  cbn [client]. rewrite IH. apply perform_frame.
Qed.

Lemma client_edges_wf (ops : list (Op T W)) s :
  edges_wf (this s) → edges_wf (this (client ops s)).
Proof.
  revert s. induction ops as [|op ops IH]; intros s Hwf; [done|].
  cbn [client]. apply IH. destruct Hwf as [Hnd Hloop].
  destruct (perform_frame op s) as [_ [ps Hps]].
  unfold edges_wf. rewrite Hps. by apply foldl_submit_wf.
Qed.

(** ** The claims about registration and reset *)

(** C6: in an engine that a client has built and used in any way, the
    edge set has no self-loop and no pair stored twice.  A second
    [addTransitions] with the same argument changes nothing, and after
    [addTransitions] has been called twice with a pair (A, B), A and B
    different, that pair is stored exactly once. *)
Theorem edges_wf_always (start : T) (w : W) (ops : list (Op T W)) :
  edges_wf (this (client ops (fresh start w)))
  ∧ (∀ fcn,
       client (ops ++ [AddTransitions fcn; AddTransitions fcn]) (fresh start w)
       = client (ops ++ [AddTransitions fcn]) (fresh start w))
  ∧ (∀ A B, A ≠ B →
       stored
         (this (client
                  (ops ++ [AddTransitions (mkTransitions (Some [A]) (Some [B]));
                           AddTransitions (mkTransitions (Some [A]) (Some [B]))])
                  (fresh start w)))
         A B = 1).
Proof.
  assert (edges_wf (this (fresh start w))) as Hfresh.
  { split; [apply NoDup_nil_2|]. by intros tf ?%elem_of_nil. }
  split; [by apply client_edges_wf|].
  assert (∀ fcn,
       client (ops ++ [AddTransitions fcn; AddTransitions fcn]) (fresh start w)
       = client (ops ++ [AddTransitions fcn]) (fresh start w)) as Htwice.
  { intros fcn. rewrite !client_app. cbn [client perform].
    rewrite !addTransitions_store. cbn [this with_edges
      _transitionFunctions set_transitionFunctions].
    rewrite foldl_submit_twice. reflexivity. }
  split; [exact Htwice|]. intros A B Hne. rewrite Htwice.
  pose proof (client_edges_wf
                (ops ++ [AddTransitions (mkTransitions (Some [A]) (Some [B]))])
                _ Hfresh) as [Hnd _].
  revert Hnd. rewrite client_app. cbn [client perform].
  rewrite addTransitions_store. unfold stored.
  cbn [this with_edges _transitionFunctions set_transitionFunctions].
  set (tfs := foldl submit _ _). intros Hnd.
  assert (mkTransitionFunction A B ∈ tfs) as Hin.
  { apply elem_of_foldl_submit. right. exists (A, B).
    split; [|done]. unfold submitted, cross. cbn. by left. }
  clearbody tfs. clear -Hnd Hin.
  induction Hnd as [|tf tfs Hnotin Hnd IH]; [by apply elem_of_nil in Hin|].
  rewrite filter_cons. case_decide as Htf.
  - subst tf. cbn [length]. f_equal.
    clear -Hnotin. induction tfs as [|tf tfs IH]; [done|].
    rewrite filter_cons. apply not_elem_of_cons in Hnotin as [Hne Hnotin].
    rewrite decide_False by done. by apply IH.
  - apply IH. apply elem_of_cons in Hin as [Heq|Hin]; [congruence|done].
Qed.

(** C8: whatever a client has done with an engine constructed with start
    state [start], [reset()] returns normally with the current state
    [start], and it calls no callback: the call log and the application
    state are what they were. *)
Theorem reset_to_start (start : T) (w : W) (ops : list (Op T W)) :
  let s := client ops (fresh start w) in
  ∃ s',
    reset s = (Normal (), s')
    ∧ currentState (this s') = start
    ∧ calls s' = calls s
    ∧ app s' = app s.
Proof.
  intros s. eexists. split; [reflexivity|]. cbn. split; [|done].
  unfold s. by rewrite client_startState.
Qed.

(** C9: [from(states...)] returns the builder and leaves the store as it
    was.  [to(states...)] on that builder returns normally and submits
    the pairs of the cross product of the two lists for registration,
    no other pair: an edge is stored afterwards exactly when it was
    stored before or is a pair of different states of the cross
    product.  With an empty list on either side the store is left as it
    was and nothing is thrown. *)
Theorem from_to_cross (froms tos : list T) s :
  ∃ builder s',
    from froms s = (Normal builder, s)
    ∧ to builder tos s = (Normal (), s')
    ∧ s' = with_edges (foldl submit (_transitionFunctions (this s))
                             (cross froms tos)) s
    ∧ (∀ f t, (f, t) ∈ cross froms tos ↔ f ∈ froms ∧ t ∈ tos)
    ∧ (∀ f t, registered (this s') f t ↔
              registered (this s) f t ∨ (f ∈ froms ∧ t ∈ tos ∧ f ≠ t))
    ∧ (froms = [] ∨ tos = [] → s' = s).
Proof.
  eexists _, _. split; [reflexivity|].
  unfold to. cbn [fromStates]. rewrite addTransitions_both.
  split; [reflexivity|]. split; [reflexivity|].
  split; [apply elem_of_cross|]. split.
  - intros f t. unfold registered.
    cbn [this with_edges _transitionFunctions set_transitionFunctions].
    rewrite elem_of_foldl_submit. split.
    + intros [?|([f' t'] & Hin & [= -> ->] & Hne)]; [by left|right].
      apply elem_of_cross in Hin. tauto.
    + intros [?|(Hf & Ht & Hne)]; [by left|right].
      exists (f, t). split; [by apply elem_of_cross|done].
  - intros [-> | ->].
    + cbn. apply with_edges_same.
    + assert (cross froms [] = []) as ->.
      { induction froms as [|f froms IH]; [done|].
        by rewrite cross_cons, IH. }
      cbn. apply with_edges_same.
Qed.

End Properties.

(** * The concrete machines *)

(** The callbacks of an explicit list return. *)
Ltac returns :=
  lazymatch goal with
  | |- never_throw ?l =>
      let l' := eval vm_compute in l in
      replace l with l' by (vm_compute; reflexivity);
      repeat (apply never_throw_intro;
              [intros ? ?; eexists; reflexivity|]);
      apply never_throw_nil
  end.

Section JobFacts.
Import Job.

(** The scenario of the documentation. *)
Example job_scenario :
  (canGo Done willing).1 = Normal false
  ∧ (go Running willing).1 = Normal ()
  ∧ currentState (this finished) = Done
  ∧ (canGo Idle finished).1 = Normal false
  ∧ (canGo Done finished).1 = Normal true.
Proof. by vm_compute. Qed.

Lemma willing_edge : registered (this willing) Idle Running.
Proof. apply (bool_decide_unpack _). by vm_compute. Defined.

Lemma refusing_edge : registered (this refusing) Idle Running.
Proof. apply (bool_decide_unpack _). by vm_compute. Defined.

Lemma phases_ordinary (p : Phase) : ordinary p.
Proof. destruct p; vm_compute; reflexivity. Defined.

Lemma go_commits_witness :
  ∃ s',
    go Running willing = (Normal (), s')
    ∧ currentState (this s') = Running
    ∧ calls s' = [Call ExitReg 1; Call ExitReg 2; Call EnterReg 3;
                  Call OnReg 4; Call OnReg 5]
    ∧ app s' = [1; 2; 3; 4; 5].
Proof.
  destruct (go_commits Idle Running willing willing_edge)
    as (s' & Hgo & Hcur & Hcalls & Happ).
  - reflexivity.
  - apply phases_ordinary.
  - apply phases_ordinary.
  - vm_compute. tauto.
  - vm_compute. tauto.
  - returns.
  - exists s'. split; [exact Hgo|]. split; [exact Hcur|].
    split; [rewrite Hcalls|rewrite Happ]; by vm_compute.
Defined.

Lemma go_throws_iff_witness :
  (∃ e s',
     go Done willing = (Throw e, s')
     ∧ e = Error "Error no transition function exists from state Idle to Done"
     ∧ s' = willing)
  ∧ ¬ ∃ e s', go Running willing = (Throw e, s').
Proof.
  split.
  - destruct (go_throws_iff Done willing) as [Hthrow _].
    eexists _, _. split; [|split; [vm_compute; reflexivity|reflexivity]].
    apply Hthrow. split; [vm_compute; discriminate|].
    apply (bool_decide_unpack _). vm_compute. exact I.
  - destruct (go_throws_iff Running willing) as [_ Honly].
    destruct Honly as [Hiff _];
      [apply phases_ordinary|apply phases_ordinary|returns..|].
    intros [_ Hnr]%Hiff. apply Hnr. exact willing_edge.
Defined.

Lemma go_vetoed_witness :
  ∃ s' made,
    go Running refusing = (Normal (), s')
    ∧ currentState (this s') = Idle
    ∧ calls s' = calls refusing ++ made
    ∧ (∀ id, Call OnReg id ∉ made)
    ∧ app s' = [1; 3; 4].
Proof.
  destruct (go_vetoed Idle Running refusing refusing_edge)
    as (s' & made & Hgo & Hcur & Hcalls & Hnone & Happ).
  - reflexivity.
  - apply phases_ordinary.
  - apply phases_ordinary.
  - returns.
  - returns.
  - left. by vm_compute.
  - exists s', made. repeat (split; [assumption|]).
    rewrite Happ. by vm_compute.
Defined.

Lemma every_guard_called_refuted :
  registered (this refusing) Idle Running
  ∧ currentState (this refusing) = Idle
  ∧ ¬ every_guard_called refusing Running.
Proof.
  split; [exact refusing_edge|]. split; [reflexivity|].
  intros [Hexit _].
  assert (exit_guards refusing = [guard_ 1 false; guard_ 2 true]) as Hgs
    by (by vm_compute).
  specialize (Hexit (guard_ 2 true)). rewrite Hgs in Hexit.
  assert (event ExitReg (guard_ 2 true)
          ∉ drop (length (calls refusing)) (calls (go Running refusing).2))
    as Hnot.
  { apply (bool_decide_unpack _). by vm_compute. }
  apply Hnot, Hexit. right. left.
Qed.

Lemma guard_folds_stop_at_first_false_witness :
  ∃ s' called_exit called_enter,
    go Running refusing = (Normal (), s')
    ∧ calls s' = [Call ExitReg 1; Call EnterReg 3; Call EnterReg 4]
    ∧ stops_at_first_false Idle [guard_ 1 false; guard_ 2 true] []
        called_exit
    ∧ stops_at_first_false Idle [guard_ 3 true; guard_ 4 true]
        (app_after Idle called_exit []) called_enter
    ∧ canExit refusing = false
    ∧ canEnter refusing Running = true.
Proof.
  destruct (guard_folds_stop_at_first_false Running refusing
              (or_intror refusing_edge))
    as (s' & called_exit & called_enter & Hgo & Hcalls & Hexit & Henter & _);
    [apply phases_ordinary|apply phases_ordinary|returns..|].
  exists s', called_exit, called_enter. split; [exact Hgo|].
  split.
  { assert (s' = (go Running refusing).2) as -> by (by rewrite Hgo).
    vm_compute. reflexivity. }
  split; [exact Hexit|]. split; [exact Henter|].
  vm_compute. split; reflexivity.
Defined.

Lemma canGo_iff_witness :
  ∃ b : bool,
    canGo Idle finished = (Normal b, finished)
    ∧ (b = true ↔
       Idle = currentState (this finished)
       ∨ registered (this finished) (currentState (this finished)) Idle)
    ∧ canGo (currentState (this finished)) finished = (Normal true, finished).
Proof. exact (canGo_iff Idle finished). Defined.

Lemma edges_wf_always_witness :
  edges_wf (this finished)
  ∧ stored
      (this (client
               (edges ++ [AddTransitions (mkTransitions (Some [Done]) (Some [Idle]));
                          AddTransitions (mkTransitions (Some [Done]) (Some [Idle]))])
               (fresh Idle [])))
      Done Idle = 1.
Proof.
  split.
  - exact (proj1 (edges_wf_always Idle [] (setup ++ [Go Running; Go Done]))).
  - apply (proj2 (proj2 (edges_wf_always Idle [] edges))). discriminate.
Defined.

Lemma go_self_witness :
  ∃ s',
    go Idle willing = (Normal (), s')
    ∧ currentState (this s') = Idle
    ∧ calls s' = [Call ExitReg 1; Call ExitReg 2; Call OnReg 6]
    ∧ app s' = [1; 2; 6].
Proof.
  destruct (go_self willing) as (s' & Hgo & Hcur & Hcalls & Happ);
    [apply phases_ordinary|returns..|].
  exists s'. split; [exact Hgo|]. split; [exact Hcur|].
  split; [rewrite Hcalls|rewrite Happ]; by vm_compute.
Defined.

Lemma reset_to_start_witness :
  ∃ s',
    reset finished = (Normal (), s')
    ∧ currentState (this s') = Idle
    ∧ calls s' = calls finished
    ∧ app s' = app finished.
Proof.
  exact (reset_to_start Idle [] (setup ++ [Go Running; Go Done])).
Defined.

Lemma from_to_cross_witness :
  ∃ builder s',
    from [Idle; Running] blank = (Normal builder, blank)
    ∧ to builder [Running; Done] blank = (Normal (), s')
    ∧ _transitionFunctions (this s')
      = [mkTransitionFunction Idle Running; mkTransitionFunction Idle Done;
         mkTransitionFunction Running Done].
Proof.
  destruct (from_to_cross [Idle; Running] [Running; Done] blank)
    as (builder & s' & Hfrom & Hto & Hs' & _).
  exists builder, s'. split; [exact Hfrom|]. split; [exact Hto|].
  rewrite Hs'. by vm_compute.
Defined.

Lemma enter_fold_always_runs_witness :
  ∃ s' (committed : list (Callback Phase Journal unit)),
    go Running refusing = (Normal (), s')
    ∧ canExit refusing = false
    ∧ Call EnterReg 3 ∈ drop (length (calls refusing)) (calls s')
    ∧ currentState (this s') = Idle
    ∧ committed = [].
Proof.
  destruct (enter_fold_always_runs Running refusing
              (or_intror refusing_edge))
    as (s' & committed & Hgo & _ & Hfirst & _ & Hstay);
    [apply phases_ordinary|apply phases_ordinary|returns..|].
  exists s', committed. split; [exact Hgo|]. split; [by vm_compute|].
  split.
  - apply (Hfirst (guard_ 3 true) [guard_ 4 true]). by vm_compute.
  - apply Hstay. by vm_compute.
Defined.

End JobFacts.

Section WordsFacts.
Import Words.

(** A state whose string is the name of an inherited property: callbacks
    cannot be registered for it, and a transition into it is accepted and
    then stopped by a TypeError, after the exit guards have been called
    and without a commit. *)
Example inherited_key :
  on "constructor" (note 9) odd = (Throw TypeError, odd)
  ∧ (canGo "constructor" odd).1 = Normal true
  ∧ (go "constructor" odd).1 = Throw TypeError
  ∧ calls (go "constructor" odd).2 = [Call ExitReg 1]
  ∧ currentState (this (go "constructor" odd).2) = "idle".
Proof. by vm_compute. Qed.

(** A guard that throws: [go] throws what the guard has thrown, the
    guards after it are not called and nothing is committed. *)
Example throwing_guard :
  (go "busy" brittle).1 = Throw (Error "guard failed")
  ∧ calls (go "busy" brittle).2 = [Call ExitReg 1; Call EnterReg 2]
  ∧ currentState (this (go "busy" brittle).2) = "idle".
Proof. by vm_compute. Qed.

End WordsFacts.

(** * Further properties of the engine *)

Section Extras.
Context {T : Type} `{EqDecision T} `{ToString T} `{ObjectPrototype} {W : Type}.
Implicit Types (s : Store T W) (m : FiniteStateMachine T W).
Implicit Types (state cur : T) (w : W).

(** ** Helpers *)

Lemma conjunction_snoc_false cur (gs : list (Callback T W bool)) g w :
  always_false g → conjunction cur (gs ++ [g]) w = false.
Proof.
  intros Hg. revert w. induction gs as [|g' gs IH]; intros w; simpl.
  - by rewrite Hg.
  - rewrite IH. apply andb_false_r.
Qed.

(** What [go(state)] does in every case: the calls it makes, the state it
    leaves the engine in, and when it commits. *)
Lemma go_general state s :
  ∃ (committed : bool) l1 l2 l3,
    made (go state) s
    = map (event ExitReg) l1 ++ map (event EnterReg) l2
      ++ map (event OnReg) l3
    ∧ calls (go state s).2 = calls s ++ made (go state) s
    ∧ currentState (this (go state s).2)
      = (if committed then state else currentState (this s))
    ∧ (∀ g, g ∈ l1 → g ∈ exit_guards s)
    ∧ (∀ g, g ∈ l2 → g ∈ enter_guards s state)
    ∧ (∀ cb, cb ∈ l3 → cb ∈ on_commit s state)
    ∧ (committed = true →
       (currentState (this s) = state
        ∨ registered (this s) (currentState (this s)) state)
       ∧ get (_exitCallbacks (this s)) (toString (currentState (this s)))
         ≠ Inherited
       ∧ conjunction (currentState (this s)) (exit_guards s) (app s) = true
       ∧ get (_enterCallbacks (this s)) (toString state) ≠ Inherited
       ∧ ∃ w1, conjunction (currentState (this s)) (enter_guards s state) w1
               = true)
    ∧ (committed = false → l3 = []).
Proof.
  unfold made.
  destruct (decide (currentState (this s) = state
                    ∨ registered (this s) (currentState (this s)) state))
    as [Hok|Hno].
  - rewrite (go_accepted _ _ Hok).
    destruct (_transitionTo_shape state s)
      as (r & committed & l1 & l2 & l3 & w' & -> & H1 & H2 & H3 & Hc & Hn).
    exists committed, l1, l2, l3. cbn [snd this calls].
    rewrite drop_app_length. split; [done|]. split; [done|].
    split; [by destruct committed|]. repeat split; try done; by apply Hc.
  - rewrite go_rejected by tauto. exists false, [], [], []. cbn [snd].
    rewrite drop_all. cbn [map app].
    split; [done|]. split; [by rewrite app_nil_r|]. split; [done|].
    split; [by intros ? ?%elem_of_nil|].
    split; [by intros ? ?%elem_of_nil|].
    split; [by intros ? ?%elem_of_nil|]. by split.
Qed.

(** [go(state)] when the keys it reads are ordinary and the closures it
    may call do not throw. *)
Lemma go_accepted_outcome state s :
  currentState (this s) = state
  ∨ registered (this s) (currentState (this s)) state →
  ordinary (currentState (this s)) → ordinary state →
  never_throw (exit_guards s) → never_throw (enter_guards s state) →
  never_throw (on_commit s state) →
  (go state s).1 = Normal ()
  ∧ currentState (this (go state s).2)
    = (if canExit s && canEnter s state then state
       else currentState (this s))
  ∧ made (go state) s
    = map (event ExitReg)
          (upto_first_false (currentState (this s)) (exit_guards s) (app s))
      ++ map (event EnterReg)
             (upto_first_false (currentState (this s)) (enter_guards s state)
                               (after_exit s))
      ++ (if canExit s && canEnter s state
          then map (event OnReg) (on_commit s state) else [])
  ∧ app (go state s).2
    = (if canExit s && canEnter s state
       then app_after state (on_commit s state) (after_enter s state)
       else after_enter s state).
Proof.
  intros Hok Hcur Hstate Hexit Henter Hon. unfold made.
  rewrite (go_accepted _ _ Hok), _transitionTo_spec by done.
  destruct (canExit s && canEnter s state); cbn [fst snd this calls app];
    rewrite drop_app_length; repeat split; try done.
  by rewrite app_nil_r.
Qed.

(** ** Registration of callbacks *)

(** X1: unless the string of [state] is the name of an inherited property
    under which the registry holds nothing, [on(state, callback)] returns
    normally and puts the callback at the end of the on-commit callbacks
    of every state whose string is that of [state]; the on-commit
    callbacks of the other states, the guards, the edges, the current and
    the start state are what they were, and no callback is called.  In
    the other case it throws a TypeError and leaves the store as it
    was. *)
Theorem on_appends state (cb : Callback T W unit) s :
  (get (_onCallbacks (this s)) (toString state) ≠ Inherited →
   ∃ s',
     on state cb s = (Normal (), s')
     ∧ (∀ st, on_callbacks (this s') st
              = if decide (toString st = toString state)
                then on_callbacks (this s) st ++ [cb]
                else on_callbacks (this s) st)
     ∧ (∀ st, exit_callbacks (this s') st = exit_callbacks (this s) st)
     ∧ (∀ st, enter_callbacks (this s') st = enter_callbacks (this s) st)
     ∧ _transitionFunctions (this s') = _transitionFunctions (this s)
     ∧ currentState (this s') = currentState (this s)
     ∧ _startState (this s') = _startState (this s)
     ∧ app s' = app s
     ∧ calls s' = calls s)
  ∧ (get (_onCallbacks (this s)) (toString state) = Inherited →
     on state cb s = (Throw TypeError, s)).
Proof.
  split; [|apply on_inherited]. intros Hown.
  eexists. split; [by apply on_spec|]. cbn [this app calls].
  split; [|done]. intros st. unfold on_callbacks.
  cbn [_onCallbacks set_onCallbacks]. rewrite callbacks_insert.
  case_decide as Hkey; [|apply callbacks_ensure].
  unfold on_commit, callbacks. by rewrite Hkey.
Qed.

(** X2: unless the string of [state] is the name of an inherited property
    under which the registry holds nothing, [onEnter(state, callback)]
    returns normally and puts the guard at the end of the enter guards of
    every state whose string is that of [state]; everything else is what
    it was, and no callback is called.  In the other case it throws a
    TypeError and leaves the store as it was. *)
Theorem onEnter_appends state (cb : Callback T W bool) s :
  (get (_enterCallbacks (this s)) (toString state) ≠ Inherited →
   ∃ s',
     onEnter state cb s = (Normal (), s')
     ∧ (∀ st, enter_callbacks (this s') st
              = if decide (toString st = toString state)
                then enter_callbacks (this s) st ++ [cb]
                else enter_callbacks (this s) st)
     ∧ (∀ st, exit_callbacks (this s') st = exit_callbacks (this s) st)
     ∧ (∀ st, on_callbacks (this s') st = on_callbacks (this s) st)
     ∧ _transitionFunctions (this s') = _transitionFunctions (this s)
     ∧ currentState (this s') = currentState (this s)
     ∧ _startState (this s') = _startState (this s)
     ∧ app s' = app s
     ∧ calls s' = calls s)
  ∧ (get (_enterCallbacks (this s)) (toString state) = Inherited →
     onEnter state cb s = (Throw TypeError, s)).
Proof.
  split; [|apply onEnter_inherited]. intros Hown.
  eexists. split; [by apply onEnter_spec|]. cbn [this app calls].
  split; [|done]. intros st. unfold enter_callbacks.
  cbn [_enterCallbacks set_enterCallbacks]. rewrite callbacks_insert.
  case_decide as Hkey; [|apply callbacks_ensure].
  unfold enter_guards, callbacks. by rewrite Hkey.
Qed.

(** X3: unless the string of [state] is the name of an inherited property
    under which the registry holds nothing, [onExit(state, callback)]
    returns normally and puts the guard at the end of the exit guards of
    every state whose string is that of [state]; everything else is what
    it was, and no callback is called.  In the other case it throws a
    TypeError and leaves the store as it was. *)
Theorem onExit_appends state (cb : Callback T W bool) s :
  (get (_exitCallbacks (this s)) (toString state) ≠ Inherited →
   ∃ s',
     onExit state cb s = (Normal (), s')
     ∧ (∀ st, exit_callbacks (this s') st
              = if decide (toString st = toString state)
                then exit_callbacks (this s) st ++ [cb]
                else exit_callbacks (this s) st)
     ∧ (∀ st, enter_callbacks (this s') st = enter_callbacks (this s) st)
     ∧ (∀ st, on_callbacks (this s') st = on_callbacks (this s) st)
     ∧ _transitionFunctions (this s') = _transitionFunctions (this s)
     ∧ currentState (this s') = currentState (this s)
     ∧ _startState (this s') = _startState (this s)
     ∧ app s' = app s
     ∧ calls s' = calls s)
  ∧ (get (_exitCallbacks (this s)) (toString state) = Inherited →
     onExit state cb s = (Throw TypeError, s)).
Proof.
  split; [|apply onExit_inherited]. intros Hown.
  eexists. split; [by apply onExit_spec|]. cbn [this app calls].
  split; [|done]. intros st. unfold exit_callbacks.
  cbn [_exitCallbacks set_exitCallbacks]. rewrite callbacks_insert.
  case_decide as Hkey; [|apply callbacks_ensure].
  unfold callbacks. by rewrite Hkey.
Qed.

(** ** Registration of edges on an unfinished builder *)

(** X4: [addTransitions] on a builder that [from(states...)] returned and
    on which [to] was never called throws a TypeError when the list of
    states is not empty and returns normally when it is empty; on a
    builder without from-states it throws a TypeError.  The store is what
    it was in every case. *)
Theorem addTransitions_unfinished (froms : list T) s :
  (∃ builder,
     from froms s = (Normal builder, s)
     ∧ addTransitions builder s
       = (match froms with [] => Normal () | _ :: _ => Throw TypeError end, s))
  ∧ (∀ tos, addTransitions (mkTransitions None tos) s = (Throw TypeError, s)).
Proof.
  split; [|done]. eexists. split; [reflexivity|]. by destruct froms.
Qed.

(** ** What [go] leaves alone and what it calls *)

(** X5: [go(state)], whatever its outcome, keeps the registration of the
    engine: the stored edges, the start state and, for every state, the
    on-commit callbacks, exit guards and enter guards are what they
    were. *)
Theorem go_keeps_registration state s :
  ∃ r s',
    go state s = (r, s')
    ∧ _transitionFunctions (this s') = _transitionFunctions (this s)
    ∧ _startState (this s') = _startState (this s)
    ∧ (∀ st, on_callbacks (this s') st = on_callbacks (this s) st)
    ∧ (∀ st, exit_callbacks (this s') st = exit_callbacks (this s) st)
    ∧ (∀ st, enter_callbacks (this s') st = enter_callbacks (this s) st).
Proof.
  exists (go state s).1, (go state s).2.
  split; [by destruct (go state s)|]. apply go_fields.
Qed.

(** X6: every call that [go(state)] makes is a call of an exit guard
    stored for the current state, of an enter guard stored for [state] or
    of an on-commit callback stored for [state]: callbacks stored under
    other keys are not called. *)
Theorem go_calls_only_its_callbacks state s (e : Event) :
  e ∈ made (go state) s →
  (∃ g, g ∈ exit_callbacks (this s) (currentState (this s))
        ∧ e = event ExitReg g)
  ∨ (∃ g, g ∈ enter_callbacks (this s) state ∧ e = event EnterReg g)
  ∨ (∃ cb, cb ∈ on_callbacks (this s) state ∧ e = event OnReg cb).
Proof.
  destruct (go_general state s)
    as (committed & l1 & l2 & l3 & -> & _ & _ & H1 & H2 & H3 & _).
  rewrite !elem_of_app.
  intros [Hin|[Hin|Hin]];
    apply list_elem_of_fmap in Hin as (cb & -> & Hcb).
  - left. exists cb. split; [by apply H1|done].
  - right. left. exists cb. split; [by apply H2|done].
  - right. right. exists cb. split; [by apply H3|done].
Qed.

(** X7: when the keys that [go(state)] reads are ordinary and the
    callbacks it may call do not throw, [canGo(state)] answers whether
    [go(state)] would throw: it returns true exactly when [go(state)]
    returns normally, and false exactly when [go(state)] throws its
    error. *)
Theorem canGo_predicts_go state s :
  ordinary (currentState (this s)) → ordinary state →
  never_throw (exit_guards s) → never_throw (enter_guards s state) →
  never_throw (on_commit s state) →
  ∃ b : bool,
    (canGo state s).1 = Normal b
    ∧ (b = true ↔ (go state s).1 = Normal ())
    ∧ (b = false ↔ (go state s).1 = Throw (Error (no_transition s state))).
Proof.
  intros Hcur Hstate Hexit Henter Hon.
  eexists. rewrite canGo_spec. split; [reflexivity|].
  case_bool_decide as Hok.
  - rewrite (go_accepted _ _ Hok), _transitionTo_spec by done. by split.
  - rewrite go_rejected by tauto. by split.
Qed.

(** ** What no operation of a client undoes *)

Lemma foldl_submit_prefix (ps : list (T * T)) (tfs : list (TransitionFunction T)) :
  tfs `prefix_of` foldl submit tfs ps.
Proof.
  revert tfs. induction ps as [|p ps IH]; intros tfs; cbn [foldl]; [done|].
  transitivity (submit tfs p); [|apply IH].
  unfold submit. repeat case_bool_decide; try done.
  by apply prefix_app_r.
Qed.

Lemma client_edges_prefix (ops : list (Op T W)) s :
  _transitionFunctions (this s)
  `prefix_of` _transitionFunctions (this (client ops s)).
Proof.
  revert s. induction ops as [|op ops IH]; intros s; [done|]. cbn [client].
  etransitivity; [|apply IH].
  destruct (perform_frame op s) as [_ [ps ->]]. apply foldl_submit_prefix.
Qed.

Lemma perform_callbacks_prefix (op : Op T W) s st :
  on_callbacks (this s) st `prefix_of` on_callbacks (this (perform op s).2) st
  ∧ exit_callbacks (this s) st
    `prefix_of` exit_callbacks (this (perform op s).2) st
  ∧ enter_callbacks (this s) st
    `prefix_of` enter_callbacks (this (perform op s).2) st.
Proof.
  assert (∀ {A} (reg : gmap string (list A)) key x,
            callbacks reg st
            `prefix_of` callbacks (<[key := default [] (reg !! key) ++ [x]]>
                                     (ensure key reg)) st) as Hpush.
  { intros A reg key x. rewrite callbacks_insert.
    case_decide as Hkey; [|by rewrite callbacks_ensure].
    unfold callbacks. rewrite Hkey. by apply prefix_app_r. }
  destruct op as [froms tos|fcn|st0 cb|st0 cb|st0 cb|st0|st0| |st0];
    cbn [perform].
  - unfold bind, from, to. cbn [fromStates ret].
    by rewrite addTransitions_both.
  - by rewrite addTransitions_store.
  - destruct (Inherited_dec (get (_onCallbacks (this s)) (toString st0)))
      as [Hinh|Hown]; [by rewrite on_inherited|].
    rewrite on_spec by done. split; [apply Hpush|done].
  - destruct (Inherited_dec (get (_enterCallbacks (this s)) (toString st0)))
      as [Hinh|Hown]; [by rewrite onEnter_inherited|].
    rewrite onEnter_spec by done. split; [done|]. split; [done|apply Hpush].
  - destruct (Inherited_dec (get (_exitCallbacks (this s)) (toString st0)))
      as [Hinh|Hown]; [by rewrite onExit_inherited|].
    rewrite onExit_spec by done. split; [done|]. split; [apply Hpush|done].
  - unfold bind. by rewrite canGo_spec.
  - destruct (go_fields st0 s) as (_ & _ & Hon & Hexit & Henter).
    by rewrite Hon, Hexit, Henter.
  - done.
  - done.
Qed.


(** X8: no operation of a client removes or reorders a stored edge: the
    edge list before a sequence of operations is a prefix of the edge list
    after it, so that an edge that is registered stays registered. *)
Theorem edges_only_grow (ops : list (Op T W)) s :
  _transitionFunctions (this s)
  `prefix_of` _transitionFunctions (this (client ops s))
  ∧ (∀ a b, registered (this s) a b → registered (this (client ops s)) a b).
Proof.
  split; [apply client_edges_prefix|]. intros a b Hab.
  destruct (client_edges_prefix ops s) as [k Hk]. unfold registered.
  rewrite Hk. apply elem_of_app. by left.
Qed.

(** X9: no operation of a client removes or reorders a registered
    callback: for every state, the on-commit callbacks, exit guards and
    enter guards before a sequence of operations are a prefix of those
    after it. *)
Theorem callbacks_only_grow (ops : list (Op T W)) s st :
  on_callbacks (this s) st `prefix_of` on_callbacks (this (client ops s)) st
  ∧ exit_callbacks (this s) st
    `prefix_of` exit_callbacks (this (client ops s)) st
  ∧ enter_callbacks (this s) st
    `prefix_of` enter_callbacks (this (client ops s)) st.
Proof.
  revert s. induction ops as [|op ops IH]; intros s; [done|]. cbn [client].
  destruct (perform_callbacks_prefix op s st) as (Hon & Hexit & Henter).
  destruct (IH (perform op s).2) as (Hon' & Hexit' & Henter').
  repeat split; etransitivity; eassumption.
Qed.

(** ** The engine moves along edges *)

Lemma reachable_mono m m' state :
  _startState m' = _startState m →
  (∀ a b, registered m a b → registered m' a b) →
  reachable m state → reachable m' state.
Proof.
  unfold reachable. intros -> Hsub. apply rtc_subrel. exact Hsub.
Qed.

Lemma perform_reachable (op : Op T W) s :
  is_Assign op = false →
  reachable (this s) (currentState (this s)) →
  reachable (this (perform op s).2) (currentState (this (perform op s).2)).
Proof.
  intros Hop Hreach.
  assert (∀ ps, reachable
                  (this (with_edges
                           (foldl submit (_transitionFunctions (this s)) ps) s))
                  (currentState (this s))) as Hedges.
  { intros ps. eapply reachable_mono; [| |exact Hreach]; [done|].
    intros a b Hab. unfold registered.
    destruct (foldl_submit_prefix ps (_transitionFunctions (this s)))
      as [k Hk].
    cbn [this with_edges _transitionFunctions set_transitionFunctions].
    rewrite Hk. apply elem_of_app. by left. }
  destruct op as [froms tos|fcn|st0 cb|st0 cb|st0 cb|st0|st0| |st0];
    cbn [perform]; try discriminate.
  - unfold bind, from, to. cbn [fromStates ret].
    rewrite addTransitions_both. apply Hedges.
  - rewrite addTransitions_store. apply Hedges.
  - destruct (Inherited_dec (get (_onCallbacks (this s)) (toString st0)))
      as [Hinh|Hown]; [by rewrite on_inherited|].
    rewrite on_spec by done. exact Hreach.
  - destruct (Inherited_dec (get (_enterCallbacks (this s)) (toString st0)))
      as [Hinh|Hown]; [by rewrite onEnter_inherited|].
    rewrite onEnter_spec by done. exact Hreach.
  - destruct (Inherited_dec (get (_exitCallbacks (this s)) (toString st0)))
      as [Hinh|Hown]; [by rewrite onExit_inherited|].
    rewrite onExit_spec by done. exact Hreach.
  - unfold bind. rewrite canGo_spec. exact Hreach.
  - destruct (go_fields st0 s) as (Hedge & Hstart & _).
    assert (∀ x, reachable (this s) x → reachable (this (go st0 s).2) x)
      as Hkeep.
    { intros x. apply reachable_mono; [done|].
      unfold registered. by rewrite Hedge. }
    destruct (go_general st0 s)
      as (committed & l1 & l2 & l3 & _ & _ & -> & _ & _ & _ & Hc & _).
    apply Hkeep. destruct committed; [|done].
    destruct (Hc eq_refl) as ([<-|Hstep] & _); [done|].
    unfold reachable. eapply rtc_r; [exact Hreach|exact Hstep].
  - unfold reachable. cbn. apply rtc_refl.
Qed.


(** X10: as long as the client does not write the field [currentState]
    itself, the engine is always in a state that can be reached from the
    start state along stored edges: [go] moves along edges only and
    [reset] goes back to the start. *)
Theorem engine_moves_along_edges (start : T) (w : W) (ops : list (Op T W)) :
  Forall (λ op, is_Assign op = false) ops →
  let s' := client ops (fresh start w) in
  rtc (registered (this s')) start (currentState (this s')).
Proof.
  intros Hops s'.
  assert (∀ s, reachable (this s) (currentState (this s)) →
               reachable (this (client ops s)) (currentState (this (client ops s))))
    as Hclient.
  { induction Hops as [|op ops Hop Hops IH]; intros s Hs; [done|].
    cbn [client]. apply IH. by apply perform_reachable. }
  specialize (Hclient (fresh start w) (rtc_refl _ _)).
  unfold reachable in Hclient. fold s' in Hclient.
  unfold s' in Hclient at 2. by rewrite client_startState in Hclient.
Qed.

(** ** Sequences of transitions *)

Lemma walkable_edges m m' cur (path : list T) :
  _transitionFunctions m' = _transitionFunctions m →
  walkable m cur path → walkable m' cur path.
Proof.
  intros Hedges. revert cur. induction path as [|x path IH]; intros cur;
    cbn [walkable]; [done|].
  unfold registered. rewrite Hedges. intros [Hstep Hrest].
  split; [done|]. by apply IH.
Qed.

Lemma walk_from (path : list T) (ons : T → list (Callback T W unit)) s :
  no_guards (this s) →
  walkable (this s) (currentState (this s)) path →
  ordinary (currentState (this s)) →
  (∀ st, st ∈ path → ordinary st ∧ never_throw (ons st)) →
  (∀ st, on_callbacks (this s) st = ons st) →
  currentState (this (client (Go <$> path) s))
  = default (currentState (this s)) (last path)
  ∧ calls (client (Go <$> path) s)
    = calls s ++ (path ≫= λ st, event OnReg <$> ons st)
  ∧ app (client (Go <$> path) s)
    = foldl (λ w st, app_after st (ons st) w) (app s) path.
Proof.
  revert s. induction path as [|x path IH];
    intros s Hno Hwalk Hord Hpath Hsame.
  - cbn. by rewrite app_nil_r.
  - destruct Hwalk as [Hstep Hrest]. cbn [fmap list_fmap client perform].
    destruct (Hpath x) as [Hx_ord Hx_on]; [by left|].
    assert (exit_guards s = []) as Hx by apply Hno.
    assert (enter_guards s x = []) as He by apply Hno.
    destruct (go_accepted_outcome x s Hstep)
      as (_ & Hcur & Hmade & Happ); try done.
    { rewrite Hx. apply never_throw_nil. }
    { rewrite He. apply never_throw_nil. }
    { change (on_commit s x) with (on_callbacks (this s) x).
      by rewrite Hsame. }
    destruct (go_fields x s) as (Hedges & _ & Hon & Hexit & Henter).
    destruct (go_general x s) as (_ & _ & _ & _ & _ & Hcalls & _).
    unfold canExit, canEnter, after_enter, after_exit in Hcur, Hmade, Happ.
    rewrite Hx, He in Hcur, Hmade, Happ.
    cbn [conjunction upto_first_false app_after foldl andb map app]
      in Hcur, Hmade, Happ.
    change (on_commit s x) with (on_callbacks (this s) x) in Hmade, Happ.
    rewrite Hsame in Hmade, Happ. rewrite Hmade in Hcalls.
    destruct (IH (go x s).2) as (Hcur' & Hcalls' & Happ').
    + intros st. rewrite Hexit, Henter. apply Hno.
    + rewrite Hcur. by eapply walkable_edges.
    + by rewrite Hcur.
    + intros st Hst. apply Hpath. by right.
    + intros st. by rewrite Hon.
    + split; [|split].
      * rewrite Hcur'. rewrite Hcur.
        destruct path as [|y rest]; [reflexivity|]. rewrite last_cons_cons.
        destruct (proj2 (last_is_Some (y :: rest))) as [z ->]; done.
      * rewrite Hcalls', Hcalls, bind_cons. by rewrite <- app_assoc.
      * rewrite Happ', Happ. reflexivity.
Qed.

(** X11: in an engine without guards, along a path whose every step
    stays or follows a stored edge, whose keys are ordinary and whose
    on-commit callbacks do not throw, a sequence of [go] calls ends in
    the last state of the path, and it calls the on-commit callbacks of
    the states of the path, state after state, each on an engine that is
    already in that state. *)
Theorem walk_without_guards (path : list T) s :
  no_guards (this s) →
  walkable (this s) (currentState (this s)) path →
  ordinary (currentState (this s)) →
  (∀ st, st ∈ path →
         ordinary st ∧ never_throw (on_callbacks (this s) st)) →
  let s' := client (Go <$> path) s in
  currentState (this s') = default (currentState (this s)) (last path)
  ∧ calls s'
    = calls s ++ (path ≫= λ st, event OnReg <$> on_callbacks (this s) st)
  ∧ app s'
    = foldl (λ w st, app_after st (on_callbacks (this s) st) w) (app s) path.
Proof.
  intros Hno Hwalk Hord Hpath s'. by apply walk_from.
Qed.

(** ** Registration followed by a transition *)

Lemma made_no_commit state s :
  get (_exitCallbacks (this s)) (toString (currentState (this s))) = Inherited
  ∨ conjunction (currentState (this s)) (exit_guards s) (app s) = false
  ∨ get (_enterCallbacks (this s)) (toString state) = Inherited
  ∨ (∀ w1, conjunction (currentState (this s)) (enter_guards s state) w1
           = false) →
  currentState (this (go state s).2) = currentState (this s)
  ∧ ∀ id, Call OnReg id ∉ made (go state) s.
Proof.
  intros Hveto.
  destruct (go_general state s)
    as (committed & l1 & l2 & l3 & -> & _ & -> & _ & _ & _ & Hc & Hn).
  destruct committed.
  - exfalso. destruct (Hc eq_refl) as (_ & Hx & Hcx & He & w1 & Hce).
    destruct Hveto as [Hv|[Hv|[Hv|Hv]]]; [done|congruence|done|].
    by rewrite Hv in Hce.
  - split; [done|]. rewrite (Hn eq_refl).
    intros id [Hin|[Hin|Hin]%elem_of_app]%elem_of_app.
    + apply list_elem_of_fmap in Hin as (g & [=] & _).
    + apply list_elem_of_fmap in Hin as (g & [=] & _).
    + by apply elem_of_nil in Hin.
Qed.

(** X12: a guard that returns false, once registered with [onExit] for
    the current state, blocks every transition out of that state: any
    [go] that follows leaves the current state as it is and calls no
    on-commit callback. *)
Theorem exit_guard_blocks (A : T) (g : Callback T W bool) s :
  currentState (this s) = A →
  always_false g →
  let s1 := (onExit A g s).2 in
  ∀ state,
    currentState (this (go state s1).2) = A
    ∧ ∀ id, Call OnReg id ∉ made (go state) s1.
Proof.
  intros Hcur Hg s1 state.
  destruct (Inherited_dec (get (_exitCallbacks (this s)) (toString A)))
    as [Hinh|Hown].
  - assert (s1 = s) as -> by (unfold s1; by rewrite onExit_inherited).
    rewrite <- Hcur at 1. apply made_no_commit. left. by rewrite Hcur.
  - assert (currentState (this s1) = A) as Hcur1.
    { unfold s1. by rewrite onExit_spec. }
    rewrite <- Hcur1 at 1. apply made_no_commit.
    right. left. unfold exit_guards.
    rewrite Hcur1. unfold s1. rewrite onExit_spec by done.
    cbn [snd this app _exitCallbacks set_exitCallbacks].
    rewrite callbacks_insert, decide_True by done.
    by apply conjunction_snoc_false.
Qed.

(** X13: a guard that returns false, once registered with [onEnter] for
    a state, blocks every transition into that state: a [go] to it leaves
    the current state as it is and calls no on-commit callback, also when
    the engine is already in that state. *)
Theorem enter_guard_blocks (B : T) (g : Callback T W bool) s :
  always_false g →
  let s1 := (onEnter B g s).2 in
  currentState (this (go B s1).2) = currentState (this s)
  ∧ ∀ id, Call OnReg id ∉ made (go B) s1.
Proof.
  intros Hg s1.
  destruct (Inherited_dec (get (_enterCallbacks (this s)) (toString B)))
    as [Hinh|Hown].
  - assert (s1 = s) as -> by (unfold s1; by rewrite onEnter_inherited).
    apply made_no_commit. right. right. by left.
  - assert (currentState (this s1) = currentState (this s)) as Hcur1.
    { unfold s1. by rewrite onEnter_spec. }
    rewrite <- Hcur1. apply made_no_commit.
    right. right. right. intros w1. unfold enter_guards.
    unfold s1 at 2. rewrite onEnter_spec by done.
    cbn [snd this app _enterCallbacks set_enterCallbacks].
    rewrite callbacks_insert, decide_True by done.
    by apply conjunction_snoc_false.
Qed.

(** X14: a callback registered with [on(B, callback)] is called by the
    next [go(B)] that commits, once, after the on-commit callbacks that
    were registered for B before it, when the keys of the current state
    and of B are ordinary and neither it nor those callbacks throw. *)
Theorem on_then_go (B : T) (cb : Callback T W unit) s :
  currentState (this s) = B
  ∨ registered (this s) (currentState (this s)) B →
  ordinary (currentState (this s)) → ordinary B →
  canExit s && canEnter s B = true →
  never_throw (on_commit s B ++ [cb]) →
  let s1 := (on B cb s).2 in
  (go B s1).1 = Normal ()
  ∧ currentState (this (go B s1).2) = B
  ∧ made (go B) s1
    = map (event ExitReg) (exit_guards s)
      ++ map (event EnterReg) (enter_guards s B)
      ++ map (event OnReg) (on_commit s B)
      ++ [event OnReg cb].
Proof.
  intros Hok Hcur HB Hpass Hon s1.
  pose proof (get_ordinary (_onCallbacks (this s)) _ HB) as Hown.
  assert (s1 = mkStore (set_onCallbacks
                          (<[toString B := on_commit s B ++ [cb]]>
                             (ensure (toString B) (_onCallbacks (this s))))
                          (this s))
                       (app s) (calls s)) as Hs1.
  { unfold s1. by rewrite on_spec. }
  assert (exit_guards s1 = exit_guards s
          ∧ enter_guards s1 B = enter_guards s B
          ∧ currentState (this s1) = currentState (this s)
          ∧ app s1 = app s)
    as (Hxg & Heg & Hcur1 & Happ) by by rewrite Hs1.
  assert (on_commit s1 B = on_commit s B ++ [cb]) as Hon1.
  { rewrite Hs1. unfold on_commit at 1.
    cbn [this _onCallbacks set_onCallbacks].
    by rewrite callbacks_insert, decide_True. }
  apply andb_true_iff in Hpass as [Hexit Henter].
  apply conjunction_true in Hexit. apply conjunction_true in Henter.
  unfold after_exit in Henter.
  rewrite (all_true_called _ _ _ Hexit) in Henter.
  unfold made.
  rewrite go_accepted by (by rewrite Hcur1, Hs1).
  rewrite _transitionTo_commits.
  - cbn [fst snd this calls currentState set_currentState].
    rewrite drop_app_length, Hxg, Heg, Hon1, map_app.
    split; [done|]. split; [done|]. by rewrite <- ?app_assoc.
  - by rewrite Hcur1.
  - done.
  - by rewrite Hcur1, Hxg, Happ.
  - by rewrite Hcur1, Hxg, Heg, Happ.
  - by rewrite Hon1.
Qed.

(** ** A new engine *)

(** X15: a newly constructed engine has no edge and no callback:
    [canGo] is true for the start state only and [go] to any other state
    throws its error and leaves the store as it is.  [go] to the start
    state returns normally, stays there and calls nothing when the key of
    the start state is ordinary, and throws a TypeError and leaves the
    store as it is when that key is the name of an inherited property. *)
Theorem new_engine (start : T) (w : W) state :
  (canGo state (fresh start w)).1 = Normal (bool_decide (state = start))
  ∧ (state ≠ start →
     go state (fresh start w)
     = (Throw (Error ("Error no transition function exists from state "
                        +:+ toString start +:+ " to " +:+ toString state)),
        fresh start w))
  ∧ (ordinary start →
     (go start (fresh start w)).1 = Normal ()
     ∧ currentState (this (go start (fresh start w)).2) = start
     ∧ calls (go start (fresh start w)).2 = []
     ∧ app (go start (fresh start w)).2 = w)
  ∧ (inherited (toString start) = true →
     go start (fresh start w) = (Throw TypeError, fresh start w)).
Proof.
  assert (∀ a b, ¬ registered (this (fresh start w)) a b) as Hnone.
  { intros a b. unfold registered. cbn. by intros ?%elem_of_nil. }
  split; [|split; [|split]].
  - rewrite canGo_spec. cbn [fst]. f_equal. apply bool_decide_ext.
    cbn [this fresh new_FiniteStateMachine currentState]. split.
    + intros [->|Hedge]; [done|]. by apply Hnone in Hedge.
    + intros ->. by left.
  - intros Hne. rewrite go_rejected; [done|by cbn|apply Hnone].
  - intros Hord. rewrite go_accepted by by left.
    rewrite _transitionTo_spec; [by cbn|done|done|apply never_throw_nil..].
  - intros Hinh. rewrite go_accepted by by left.
    rewrite _transitionTo_unfold. cbv zeta.
    rewrite prepared_exit.
    cbn [this fresh new_FiniteStateMachine currentState _exitCallbacks].
    unfold get at 1. rewrite lookup_empty, Hinh.
    unfold prepared, ensure, get.
    cbn [this fresh new_FiniteStateMachine currentState _exitCallbacks
         _enterCallbacks _onCallbacks set_exitCallbacks set_enterCallbacks
         set_onCallbacks].
    rewrite !lookup_empty, Hinh. reflexivity.
Qed.

(** ** Builders *)

(** X16: [to] can be called more than once on the builder that [from]
    returned, and the effects add up: afterwards an edge is stored exactly
    when it was stored before or goes from one of the from-states to a
    different state of either call. *)
Theorem to_accumulates (froms tos1 tos2 : list T) s :
  ∃ builder s1 s2,
    from froms s = (Normal builder, s)
    ∧ to builder tos1 s = (Normal (), s1)
    ∧ to builder tos2 s1 = (Normal (), s2)
    ∧ ∀ a b, registered (this s2) a b ↔
             registered (this s) a b
             ∨ (a ∈ froms ∧ (b ∈ tos1 ∨ b ∈ tos2) ∧ a ≠ b).
Proof.
  eexists _, _, _. split; [reflexivity|]. unfold to. cbn [fromStates].
  rewrite !addTransitions_both. split; [reflexivity|]. split; [reflexivity|].
  intros a b. unfold registered.
  cbn [this with_edges _transitionFunctions set_transitionFunctions].
  rewrite !elem_of_foldl_submit. split.
  - intros [[?|([f t] & Hin & [= -> ->] & Hne)]|([f t] & Hin & [= -> ->] & Hne)];
      [by left| |]; apply elem_of_cross in Hin; tauto.
  - intros [?|(Ha & [Hb|Hb] & Hne)]; [by left; left| |].
    + left. right. exists (a, b). by rewrite elem_of_cross.
    + right. exists (a, b). by rewrite elem_of_cross.
Qed.

(** X17: registering from a list of states in one call is the same as
    registering from its parts one after the other: [from(A..., B...)
    .to(C...)] leaves the store that [from(A...).to(C...)] followed by
    [from(B...).to(C...)] leaves, with the edges in the same order. *)
Theorem from_splits (froms1 froms2 tos : list T) s :
  client [FromTo (froms1 ++ froms2) tos] s
  = client [FromTo froms1 tos; FromTo froms2 tos] s.
Proof.
  cbn [client perform]. unfold bind, from, to. cbn [fromStates ret].
  rewrite !addTransitions_both. cbn [snd].
  unfold cross. rewrite bind_app, foldl_app. reflexivity.
Qed.

End Extras.

(** * The concrete machines, further *)

Section JobExtras.
Import Job.

Lemma go_calls_only_its_callbacks_witness :
  (∃ g, g ∈ exit_callbacks (this refusing) (currentState (this refusing))
        ∧ Call EnterReg 3 = event ExitReg g)
  ∨ (∃ g, g ∈ enter_callbacks (this refusing) Running
          ∧ Call EnterReg 3 = event EnterReg g)
  ∨ (∃ cb, cb ∈ on_callbacks (this refusing) Running
           ∧ Call EnterReg 3 = event OnReg cb).
Proof.
  apply (go_calls_only_its_callbacks Running refusing (Call EnterReg 3)).
  apply (bool_decide_unpack _). vm_compute. exact I.
Defined.

Lemma canGo_predicts_go_witness :
  ∃ b : bool,
    (canGo Done willing).1 = Normal b
    ∧ (b = true ↔ (go Done willing).1 = Normal ())
    ∧ (b = false ↔
       (go Done willing).1 = Throw (Error (no_transition willing Done))).
Proof.
  apply (canGo_predicts_go Done willing);
    [apply phases_ordinary|apply phases_ordinary|returns..].
Defined.

Lemma edges_only_grow_witness :
  registered (this (client [Go Running; Go Done; Reset] willing)) Idle Running.
Proof.
  exact (proj2 (edges_only_grow [Go Running; Go Done; Reset] willing)
               Idle Running willing_edge).
Defined.

Lemma engine_moves_along_edges_witness :
  rtc (registered (this finished)) Idle (currentState (this finished)).
Proof.
  apply (engine_moves_along_edges Idle [] (setup ++ [Go Running; Go Done])).
  apply (bool_decide_unpack _). vm_compute. exact I.
Defined.

Lemma walk_without_guards_witness :
  currentState (this (client (Go <$> [Running; Done]) plain)) = Done
  ∧ calls (client (Go <$> [Running; Done]) plain)
    = [Call OnReg 4; Call OnReg 7; Call OnReg 8]
  ∧ app (client (Go <$> [Running; Done]) plain) = [4; 7; 8].
Proof.
  destruct (walk_without_guards [Running; Done] plain)
    as (Hcur & Hcalls & Happ).
  - intros []; vm_compute; split; reflexivity.
  - split; [right|split; [right|exact I]];
      apply (bool_decide_unpack _); vm_compute; exact I.
  - apply phases_ordinary.
  - intros st _. split; [apply phases_ordinary|]. destruct st; returns.
  - split; [rewrite Hcur|split; [rewrite Hcalls|rewrite Happ]];
      vm_compute; reflexivity.
Defined.

Lemma exit_guard_blocks_witness :
  currentState (this (go Running (onExit Idle (guard_ 9 false) willing).2).2)
  = Idle
  ∧ Call OnReg 4 ∉ made (go Running) (onExit Idle (guard_ 9 false) willing).2.
Proof.
  destruct (exit_guard_blocks Idle (guard_ 9 false) willing) with Running
    as [Hcur Hnone].
  - vm_compute. reflexivity.
  - intros cur w. reflexivity.
  - split; [exact Hcur|exact (Hnone 4)].
Defined.

Lemma enter_guard_blocks_witness :
  currentState (this (go Running (onEnter Running (guard_ 9 false) willing).2).2)
  = currentState (this willing)
  ∧ Call OnReg 4
    ∉ made (go Running) (onEnter Running (guard_ 9 false) willing).2.
Proof.
  destruct (enter_guard_blocks Running (guard_ 9 false) willing)
    as [Hcur Hnone].
  - intros cur w. reflexivity.
  - split; [exact Hcur|exact (Hnone 4)].
Defined.

Lemma on_then_go_witness :
  (go Running (on Running (note 9) willing).2).1 = Normal ()
  ∧ currentState (this (go Running (on Running (note 9) willing).2).2)
    = Running
  ∧ made (go Running) (on Running (note 9) willing).2
    = [Call ExitReg 1; Call ExitReg 2; Call EnterReg 3;
       Call OnReg 4; Call OnReg 5; Call OnReg 9].
Proof.
  destruct (on_then_go Running (note 9) willing (or_intror willing_edge))
    as (Hret & Hcur & Hmade).
  - apply phases_ordinary.
  - apply phases_ordinary.
  - vm_compute. reflexivity.
  - returns.
  - split; [exact Hret|]. split; [exact Hcur|].
    rewrite Hmade. vm_compute. reflexivity.
Defined.

Lemma new_engine_witness :
  (canGo Done blank).1 = Normal false
  ∧ go Done blank
    = (Throw (Error "Error no transition function exists from state Idle to Done"),
       blank)
  ∧ (go Idle blank).1 = Normal ()
  ∧ calls (go Idle blank).2 = [].
Proof.
  destruct (new_engine Idle ([] : Journal) Done)
    as (Hcan & Hthrow & Hstay & _).
  destruct (Hstay (phases_ordinary Idle)) as (Hret & _ & Hcalls & _).
  split; [exact Hcan|]. split; [apply Hthrow; discriminate|].
  split; [exact Hret|exact Hcalls].
Defined.

Lemma to_accumulates_witness :
  ∃ builder s1 s2,
    from [Running] blank = (Normal builder, blank)
    ∧ to builder [Done] blank = (Normal (), s1)
    ∧ to builder [Idle; Running] s1 = (Normal (), s2)
    ∧ registered (this s2) Running Idle
    ∧ ¬ registered (this s2) Running Running.
Proof.
  destruct (to_accumulates [Running] [Done] [Idle; Running] blank)
    as (builder & s1 & s2 & Hfrom & Hto1 & Hto2 & Hiff).
  exists builder, s1, s2. split; [exact Hfrom|]. split; [exact Hto1|].
  split; [exact Hto2|]. split.
  - apply Hiff. right. split; [by left|]. split; [|discriminate].
    right. by left.
  - intros [Hold|(_ & _ & Hne)]%Hiff; [|done].
    revert Hold. apply (bool_decide_unpack _). vm_compute. exact I.
Defined.

End JobExtras.

Section WordsExtras.
Import Words.

Lemma on_appends_witness :
  on "constructor" (note 9) odd = (Throw TypeError, odd)
  ∧ ∃ s', on "busy" (note 9) odd = (Normal (), s')
          ∧ map cb_id (on_callbacks (this s') "busy") = [2; 9].
Proof.
  split.
  - apply (on_appends "constructor" (note 9) odd). vm_compute. reflexivity.
  - destruct (proj1 (on_appends "busy" (note 9) odd))
      as (s' & Hon & Hlist & _); [vm_compute; discriminate|].
    exists s'. split; [exact Hon|]. rewrite Hlist. vm_compute. reflexivity.
Defined.

Lemma onEnter_appends_witness :
  onEnter "toString" (guard_ 9 true) odd = (Throw TypeError, odd)
  ∧ ∃ s', onEnter "busy" (guard_ 9 true) odd = (Normal (), s')
          ∧ map cb_id (enter_callbacks (this s') "busy") = [9].
Proof.
  split.
  - apply (onEnter_appends "toString" (guard_ 9 true) odd).
    vm_compute. reflexivity.
  - destruct (proj1 (onEnter_appends "busy" (guard_ 9 true) odd))
      as (s' & Hon & Hlist & _); [vm_compute; discriminate|].
    exists s'. split; [exact Hon|]. rewrite Hlist. vm_compute. reflexivity.
Defined.

Lemma onExit_appends_witness :
  onExit "__proto__" (guard_ 9 true) odd = (Throw TypeError, odd)
  ∧ ∃ s', onExit "idle" (guard_ 9 true) odd = (Normal (), s')
          ∧ map cb_id (exit_callbacks (this s') "idle") = [1; 9].
Proof.
  split.
  - apply (onExit_appends "__proto__" (guard_ 9 true) odd).
    vm_compute. reflexivity.
  - destruct (proj1 (onExit_appends "idle" (guard_ 9 true) odd))
      as (s' & Hon & Hlist & _); [vm_compute; discriminate|].
    exists s'. split; [exact Hon|]. rewrite Hlist. vm_compute. reflexivity.
Defined.

End WordsExtras.
